(** * net-ssdp-discover: the SSDP discovery session of [main.py]

    A shallow embedding of [send_ssdp_discovery], [receive_ssdp_responses]
    and [main], together with the parts of the Python runtime they lean on
    ([str.splitlines], [str.strip], [str.upper], [str.split], UTF-8
    encoding, integer formatting), and the properties of the discovery
    session proved over that embedding.

    Python values are modelled as follows.
    - [str]: a list of Unicode code points ([list N]).
    - [bytes]: a list of byte values ([list N], each below 256).
    - [int]: [Z].  [float] readings of the clock and timeouts: [Q] (finite
      values; what a socket makes of a timeout is the environment's).
    - [dict] of headers: a [gmap] from [str] to [str].
    - exceptions: the type [exn], one constructor per class the handlers of
      [main.py] tell apart; raising code lives in the monad [res].
    - the network and the clock: explicit scripts (the environment decides
      what each [sendto], [recvfrom], [requests.get] and clock reading
      yields), and a trace of the datagrams handed to the network.
    Logging has no effect on what the functions send or return and is left
    out; [verbose] only selects a log line. *)

From Stdlib Require Import ZArith NArith QArith List Ascii String DecimalString Lia Bool.
From stdpp Require Import gmap list strings.

Local Open Scope N_scope.

(** ** Python strings *)

Abbreviation pystr := (list N).
Abbreviation pybytes := (list N).

(** A literal: the code points of an ASCII string. *)
Definition str (s : string) : pystr :=
  map N_of_ascii (list_ascii_of_string s).

(** [str(n)] and [f'{n}'] for an [int]. *)
Definition format_int (z : Z) : pystr :=
  str (NilZero.string_of_int (Z.to_int z)).

Definition COLON : N := 58.
Definition CR : N := 13.
Definition LF : N := 10.
Definition DQUOTE : N := 34.

(** [c.isspace()]: the code points [str.strip] removes. *)
Definition is_space (c : N) : bool :=
  ((9 <=? c) && (c <=? 13)) || ((28 <=? c) && (c <=? 32))
  || (c =? 133) || (c =? 160) || (c =? 5760)
  || ((8192 <=? c) && (c <=? 8202))
  || (c =? 8232) || (c =? 8233) || (c =? 8239) || (c =? 8287) || (c =? 12288).

(** The line boundaries of [str.splitlines]. *)
Definition is_linebreak (c : N) : bool :=
  ((10 <=? c) && (c <=? 13)) || ((28 <=? c) && (c <=? 30))
  || (c =? 133) || (c =? 8232) || (c =? 8233).

(** [s.splitlines()]: [cur] is the line being read.  A line boundary ends
    the line; CR LF counts as one boundary; a last line without boundary is
    kept only when it is not empty. *)
Fixpoint splitlines_from (cur s : pystr) : list pystr :=
  match s with
  | [] => match cur with [] => [] | _ => [cur] end
  | c :: rest =>
      if is_linebreak c then
        cur :: match rest with
               | c' :: rest' =>
                   if (c =? CR) && (c' =? LF)
                   then splitlines_from [] rest'
                   else splitlines_from [] rest
               | [] => []
               end
      else splitlines_from (cur ++ [c]) rest
  end.

Definition splitlines (s : pystr) : list pystr := splitlines_from [] s.

(** [c in s]. *)
Definition in_str (c : N) (s : pystr) : bool := existsb (N.eqb c) s.

(** [s.split(c, 1)] for a string that contains [c]: the text before the
    first [c] and the text after it. *)
Fixpoint split1 (c : N) (s : pystr) : pystr * pystr :=
  match s with
  | [] => ([], [])
  | x :: rest =>
      if x =? c then ([], rest)
      else let '(before, after) := split1 c rest in (x :: before, after)
  end.

Fixpoint lstrip (s : pystr) : pystr :=
  match s with
  | [] => []
  | c :: rest => if is_space c then lstrip rest else s
  end.

Fixpoint rstrip (s : pystr) : pystr :=
  match s with
  | [] => []
  | c :: rest =>
      match rstrip rest with
      | [] => if is_space c then [] else [c]
      | kept => c :: kept
      end
  end.

(** [s.strip()]. *)
Definition strip (s : pystr) : pystr := rstrip (lstrip s).

(** The first code point, if any, is not white space. *)
Definition starts_clean (s : pystr) : Prop :=
  match s with
  | [] => True
  | c :: _ => is_space c = false
  end.

(** [s.encode('utf-8')] of one code point. *)
Definition utf8_of_code_point (c : N) : pybytes :=
  if c <? 128 then [c]
  else if c <? 2048 then [192 + c / 64; 128 + c mod 64]
  else if c <? 65536 then
    [224 + c / 4096; 128 + (c / 64) mod 64; 128 + c mod 64]
  else
    [240 + c / 262144; 128 + (c / 4096) mod 64;
     128 + (c / 64) mod 64; 128 + c mod 64].

Definition is_surrogate (c : N) : bool := (55296 <=? c) && (c <=? 57343).

(** ** Exceptions *)

(** The exception classes that the handlers of [main.py] distinguish.
    [socket.timeout] and [requests.exceptions.RequestException] are both
    subclasses of [OSError], which is what [socket.error] names. *)
Inductive exn : Type :=
  | SocketTimeout      (* socket.timeout *)
  | SocketError        (* an OSError that is neither of the two below/above *)
  | RequestException   (* requests.exceptions.RequestException, HTTPError included *)
  | OtherException     (* an Exception outside OSError: ValueError, UnicodeError, ... *)
  | BaseExc.           (* outside Exception: KeyboardInterrupt, SystemExit *)

Definition is_socket_timeout (e : exn) : bool :=
  match e with SocketTimeout => true | _ => false end.

Definition is_socket_error (e : exn) : bool :=
  match e with SocketTimeout | SocketError | RequestException => true | _ => false end.

Definition is_request_exception (e : exn) : bool :=
  match e with RequestException => true | _ => false end.

Definition is_exception (e : exn) : bool :=
  match e with BaseExc => false | _ => true end.

(** Code that returns or raises. *)
Inductive res (A : Type) : Type :=
  | Ok (a : A)
  | Raise (e : exn).
Arguments Ok {A} a.
Arguments Raise {A} e.

#[global] Instance res_ret : MRet res := fun A a => Ok a.

#[global] Instance res_bind : MBind res := fun A B k m =>
  match m with
  | Ok a => k a
  | Raise e => Raise e
  end.

(** [try: m  except <class>: handler]. *)
Definition try_except {A : Type} (m : res A) (class : exn -> bool)
    (handler : exn -> res A) : res A :=
  match m with
  | Ok a => Ok a
  | Raise e => if class e then handler e else Raise e
  end.

(** [s.encode('utf-8')]: a lone surrogate raises [UnicodeEncodeError]. *)
Definition encode_utf8 (s : pystr) : res pybytes :=
  if existsb is_surrogate s then Raise OtherException
  else Ok (flat_map utf8_of_code_point s).

(** ** Constants of [main.py] *)

Definition SSDP_ADDR : pystr := str "239.255.255.250".
Definition SSDP_PORT : Z := 1900.
Definition SSDP_MX : Z := 2.
Definition SSDP_ST : pystr := str "upnp:rootdevice".

Definition CRLF : pystr := [CR; LF].
Definition LOCATION : pystr := str "LOCATION".
Definition UNAVAILABLE : pystr := str "Unavailable".

(** ** Sockets, the network and the clock *)

Record socket : Type := {
  sock_timeout : Q;
  sock_closed : bool
}.

(** [sock.close()]. *)
Definition close (sock : socket) : socket :=
  {| sock_timeout := sock_timeout sock; sock_closed := true |}.

(** What the sender does to the outside world, in order: the datagrams it
    hands to [sendto] and its calls of [time.sleep]. *)
Inductive net_event : Type :=
  | Sendto (payload : pybytes) (addr : pystr) (port : Z)
  | Sleep (milliseconds : Z).

(** The environment of the sender, one field for each call that can
    raise: whether [socket.socket] raises; what [sock.settimeout] does with
    a timeout that is not negative (the timeout the socket keeps, which is
    the value in whole nanoseconds, or the exception raised: an
    [OverflowError] for a value that does not fit the socket's clock, an
    interrupt); whether the [i]-th [sendto] (counted from 0) raises; and
    whether the [i]-th [time.sleep] is cut short by an exception (an
    interrupt). *)
Record send_env : Type := {
  socket_raises : option exn;
  settimeout_result : Q -> res Q;
  sendto_raises : nat -> option exn;
  sleep_raises : nat -> option exn
}.

(** What [requests.get(location, timeout=5)] yields. *)
Inductive fetch_outcome : Type :=
  | FetchResponse (status_code : Z) (text : pystr)
  | FetchRaises (e : exn).

(** What one [sock.recvfrom(65507)] yields; [fetch] is what a descriptor
    fetch made while this datagram is processed would yield. *)
Inductive recv_outcome : Type :=
  | Received (data : pybytes) (ip : pystr) (port : Z) (fetch : fetch_outcome)
  | RecvRaises (e : exn).

(** One turn of the receive loop as the environment decides it: the value
    of [time.time() - start_time] read by the loop test, and the outcome of
    the [recvfrom] that follows when the loop is entered. *)
Record tick : Type := {
  elapsed : Q;
  recv : recv_outcome
}.

(** ** Discovery records *)

Record response_data : Type := {
  ip_address : pystr;
  port : Z;
  headers : gmap pystr pystr;
  device_description : pystr;
  location : pystr
}.

(** How one turn of the loop body ends. *)
Inductive turn : Type :=
  | Continue (responses : list response_data)
  | Break
  | Escapes (e : exn).

(** How the [while] loop ends: normally (test false or [break]) with the
    records appended so far, or by an exception leaving it. *)
Inductive loop_exit : Type :=
  | LoopDone (responses : list response_data)
  | LoopRaised (e : exn).

(** How a call ends: a returned value or an exception passed to the caller. *)
Inductive call_exit (A : Type) : Type :=
  | Returned (a : A)
  | Propagated (e : exn).
Arguments Returned {A} a.
Arguments Propagated {A} e.

(** The result of [receive_ssdp_responses]: how the call ended, the socket
    as the call leaves it, and how many times [recvfrom] was called. *)
Record receive_result : Type := {
  recv_exit : call_exit (list response_data);
  recv_sock : socket;
  recv_calls : nat
}.

(** Command-line arguments as [setup_argparse] returns them. *)
Record args : Type := {
  search_target : pystr;
  max_wait : Z;
  timeout : Q;
  retries : Z;
  verbose : bool
}.

Definition default_args : args :=
  {| search_target := SSDP_ST; max_wait := SSDP_MX; timeout := 5;
     retries := 3; verbose := false |}.

(** How [main()] ends: [sys.exit(code)], a normal return (with the
    responses it counted), or an exception it does not handle. *)
Inductive main_exit : Type :=
  | SysExit (code : Z)
  | Finished (responses : list response_data)
  | Uncaught (e : exn).

(** A sample of the runtime's tables, used to run the model on concrete
    inputs: case mapping and decoding for ASCII-only (one byte per code
    point) traffic. *)
Definition ascii_unicode_upper (c : N) : pystr := [c].
Definition ascii_decode (data : pybytes) : pystr := filter (fun b => b <? 128) data.

(** ** The wire format, as the specification words it *)

(** The lines of a payload: the byte runs between CR LF pairs. *)
Fixpoint crlf_lines_from (cur s : pybytes) : list pybytes :=
  match s with
  | [] => [cur]
  | c :: rest =>
      match rest with
      | c' :: rest' =>
          if (c =? CR) && (c' =? LF)
          then cur :: crlf_lines_from [] rest'
          else crlf_lines_from (cur ++ [c]) rest
      | [] => [cur ++ [c]]
      end
  end.

Definition crlf_lines (payload : pybytes) : list pybytes :=
  crlf_lines_from [] payload.

Fixpoint bytes_eqb (a b : pybytes) : bool :=
  match a, b with
  | [], [] => true
  | x :: a', y :: b' => (x =? y) && bytes_eqb a' b'
  | _, _ => false
  end.

(** The payload carries [line] as one of its CR LF separated lines. *)
Definition has_line (line payload : pybytes) : bool :=
  existsb (bytes_eqb line) (crlf_lines payload).

(** The outbound payload of the wire protocol: request line, HOST, MAN, MX
    and ST headers, CR LF after each, and a closing blank line; [mx] and
    [st] are the bytes of the MX value and of the search target. *)
Definition wire_payload (mx st : pybytes) : pybytes :=
  str "M-SEARCH * HTTP/1.1" ++ CRLF
  ++ str "HOST: 239.255.255.250:1900" ++ CRLF
  ++ str "MAN: " ++ [DQUOTE] ++ str "ssdp:discover" ++ [DQUOTE] ++ CRLF
  ++ str "MX: " ++ mx ++ CRLF
  ++ str "ST: " ++ st ++ CRLF
  ++ CRLF.

(** ** Sample sessions *)

(** An environment in which no socket call of the sender raises. *)
Definition quiet_env : send_env :=
  {| socket_raises := None; settimeout_result := fun t => Ok t;
     sendto_raises := fun _ => None; sleep_raises := fun _ => None |}.

Definition sample_location : pystr := str "http://10.0.0.5:80/desc.xml".

(** A reply that names a descriptor, and one that does not. *)
Definition reply_with_location : pybytes :=
  str "HTTP/1.1 200 OK" ++ CRLF
  ++ str "Location: http://10.0.0.5:80/desc.xml" ++ CRLF
  ++ str "ST: upnp:rootdevice" ++ CRLF
  ++ CRLF.

Definition reply_without_location : pybytes :=
  str "HTTP/1.1 200 OK" ++ CRLF
  ++ str "ST: upnp:rootdevice" ++ CRLF
  ++ CRLF.

Definition reply_duplicate_st : pybytes :=
  str "ST: a" ++ CRLF ++ str "st : b" ++ CRLF ++ str "USN: c".

Definition responder_ip : pystr := str "10.0.0.5".

(** Turns of the loop inside a two second window, and one after it. *)
Definition turn_fetched : tick :=
  {| elapsed := 1 # 10;
     recv := Received reply_with_location responder_ip 1900
               (FetchResponse 200 (str "<root/>")) |}.

Definition turn_not_found : tick :=
  {| elapsed := 3 # 10;
     recv := Received reply_with_location responder_ip 1900
               (FetchResponse 404 (str "not found")) |}.

Definition turn_no_location : tick :=
  {| elapsed := 4 # 10;
     recv := Received reply_without_location responder_ip 1900
               (FetchRaises RequestException) |}.

Definition turn_fetch_crashes : tick :=
  {| elapsed := 5 # 10;
     recv := Received reply_with_location responder_ip 1900
               (FetchRaises OtherException) |}.

Definition turn_socket_error : tick :=
  {| elapsed := 6 # 10; recv := RecvRaises SocketError |}.

Definition turn_timeout : tick :=
  {| elapsed := 7 # 10; recv := RecvRaises SocketTimeout |}.

Definition turn_deadline : tick :=
  {| elapsed := 21 # 10; recv := RecvRaises SocketTimeout |}.

Definition open_socket : socket :=
  {| sock_timeout := 5; sock_closed := false |}.

(** The headers of [reply_with_location] and the records made from it. *)
Definition sample_headers : gmap pystr pystr :=
  <[str "ST" := str "upnp:rootdevice"]>
    (<[str "LOCATION" := sample_location]> ∅).

Definition record_fetched : response_data :=
  {| ip_address := responder_ip; port := 1900; headers := sample_headers;
     device_description := str "<root/>"; location := sample_location |}.

Definition record_unavailable : response_data :=
  {| ip_address := responder_ip; port := 1900; headers := sample_headers;
     device_description := str "Unavailable"; location := sample_location |}.

Section Session.

(** The parts of the Python runtime that are tables or library code, taken
    as given: the full upper-case mapping of a non-ASCII code point
    ([str.upper] maps each code point on its own), and
    [bytes.decode('utf-8', errors='ignore')]. *)
Variable unicode_upper : N -> pystr.
Variable decode_utf8_ignore : pybytes -> pystr.

Definition upper_code_point (c : N) : pystr :=
  if c <? 128 then
    (if (97 <=? c) && (c <=? 122) then [c - 32] else [c])
  else unicode_upper c.

(** [s.upper()]. *)
Definition upper (s : pystr) : pystr := flat_map upper_code_point s.

(** *** QueryTransmitter: [send_ssdp_discovery] *)

Definition ssdp_request (search_target : pystr) : pystr :=
  str "M-SEARCH * HTTP/1.1" ++ CRLF
  ++ str "HOST: " ++ SSDP_ADDR ++ str ":" ++ format_int SSDP_PORT ++ CRLF
  ++ str "MAN: " ++ [DQUOTE] ++ str "ssdp:discover" ++ [DQUOTE] ++ CRLF
  ++ str "MX: " ++ format_int SSDP_MX ++ CRLF
  ++ str "ST: " ++ search_target ++ CRLF
  ++ CRLF.

(** [sock.settimeout(timeout)]: a negative value raises [ValueError];
    for another value the socket keeps what the runtime makes of it, or the
    runtime raises ([OverflowError] when the value does not fit). *)
Definition settimeout (env : send_env) (sock : socket) (timeout : Q) : res socket :=
  if Qle_bool 0 timeout
  then kept ← settimeout_result env timeout;
       Ok {| sock_timeout := kept; sock_closed := sock_closed sock |}
  else Raise OtherException.

(** The [for i in range(retries)] loop over the indices still to do. *)
Fixpoint send_loop (env : send_env) (request : pystr) (indices : list nat)
    (trace : list net_event) : res unit * list net_event :=
  match indices with
  | [] => (Ok tt, trace)
  | i :: rest =>
      match encode_utf8 request with
      | Raise e => (Raise e, trace)
      | Ok payload =>
          match sendto_raises env i with
          | Some e => (Raise e, trace)
          | None =>
              let trace' :=
                trace ++ [Sendto payload SSDP_ADDR SSDP_PORT; Sleep 100] in
              match sleep_raises env i with
              | Some e => (Raise e, trace')
              | None => send_loop env request rest trace'
              end
          end
      end
  end.

(** [range(n)]. *)
Definition range (n : Z) : list nat := seq 0 (Z.to_nat n).

(** The [try] block of [send_ssdp_discovery]. *)
Definition send_body (env : send_env) (search_target : pystr) (retries : Z)
    (timeout : Q) : res socket * list net_event :=
  match socket_raises env with
  | Some e => (Raise e, [])
  | None =>
      match settimeout env {| sock_timeout := 0; sock_closed := false |} timeout with
      | Raise e => (Raise e, [])
      | Ok sock =>
          let '(r, trace) :=
            send_loop env (ssdp_request search_target) (range retries) [] in
          (_ ← r; Ok sock, trace)
      end
  end.

(** [send_ssdp_discovery]: [Some sock] on success, [None] after any
    [Exception]; what is not an [Exception] is passed to the caller. *)
Definition send_ssdp_discovery (env : send_env) (search_target : pystr)
    (retries : Z) (timeout : Q) : call_exit (option socket) * list net_event :=
  let '(r, trace) := send_body env search_target retries timeout in
  (match r with
   | Ok sock => Returned (Some sock)
   | Raise e =>
       if is_socket_error e then Returned None
       else if is_exception e then Returned None
       else Propagated e
   end, trace).

(** The datagrams of a trace, in order. *)
Definition datagrams (trace : list net_event) : list (pybytes * pystr * Z) :=
  flat_map (fun ev => match ev with
                      | Sendto payload addr port => [(payload, addr, port)]
                      | Sleep _ => []
                      end) trace.

(** *** ResponseCollector: [receive_ssdp_responses] *)

(** Lines 99-101: one line of the datagram, as the entry it adds. *)
Definition parse_line (line : pystr) : option (pystr * pystr) :=
  if in_str COLON line then
    let '(key, value) := split1 COLON line in
    Some (upper (strip key), strip value)
  else None.

Definition add_line (headers : gmap pystr pystr) (line : pystr) : gmap pystr pystr :=
  match parse_line line with
  | Some (key, value) => <[key := value]> headers
  | None => headers
  end.

(** Lines 97-101: the headers of a decoded datagram. *)
Definition parse_headers (response_str : pystr) : gmap pystr pystr :=
  fold_left add_line (splitlines response_str) ∅.

(** [requests.get(location, timeout=5)]. *)
Definition requests_get (fetch : fetch_outcome) : res (Z * pystr) :=
  match fetch with
  | FetchResponse status_code text => Ok (status_code, text)
  | FetchRaises e => Raise e
  end.

(** [response.raise_for_status()]: [HTTPError] for a 4xx or 5xx status. *)
Definition raise_for_status (status_code : Z) : res unit :=
  if ((400 <=? status_code) && (status_code <? 600))%Z
  then Raise RequestException
  else Ok tt.

(** Lines 105-115: the descriptor of a record. *)
Definition fetch_device_description (fetch : fetch_outcome) : res pystr :=
  try_except
    ('(status_code, text) ← requests_get fetch;
     _ ← raise_for_status status_code;
     Ok text)
    is_request_exception
    (fun _ => Ok UNAVAILABLE).

(** Lines 93-125: the inner [try] block for one received datagram. *)
Definition process_datagram (data : pybytes) (ip : pystr) (port : Z)
    (fetch : fetch_outcome) (responses : list response_data)
    : res (list response_data) :=
  let response_str := decode_utf8_ignore data in
  let headers := parse_headers response_str in
  match headers !! LOCATION with
  | Some location =>
      device_description ← fetch_device_description fetch;
      Ok (responses ++ [{| ip_address := ip; port := port; headers := headers;
                           device_description := device_description;
                           location := location |}])
  | None => Ok responses
  end.

(** Lines 93-125: the body of the inner [try]. *)
Definition loop_body (r : recv_outcome) (responses : list response_data)
    : res (list response_data) :=
  match r with
  | Received data ip port fetch => process_datagram data ip port fetch responses
  | RecvRaises e => Raise e
  end.

(** Lines 92-132: one turn of the loop, the two [except] clauses of the
    inner [try] included. *)
Definition loop_turn (r : recv_outcome) (responses : list response_data) : turn :=
  match loop_body r responses with
  | Ok responses' => Continue responses'
  | Raise e =>
      if is_socket_timeout e then Break
      else if is_socket_error e then Break
      else Escapes e
  end.

(** Line 91: [time.time() - start_time < max_wait]. *)
Definition before_deadline (max_wait : Z) (t : tick) : bool :=
  negb (Qle_bool (inject_Z max_wait) (elapsed t)).

(** Lines 91-132: the [while] loop.  [None]: the script ends before the
    loop does. *)
Fixpoint receive_loop (max_wait : Z) (script : list tick)
    (responses : list response_data) (calls : nat) : option (loop_exit * nat) :=
  match script with
  | [] => None
  | t :: rest =>
      if before_deadline max_wait t then
        match loop_turn (recv t) responses with
        | Continue responses' => receive_loop max_wait rest responses' (S calls)
        | Break => Some (LoopDone responses, S calls)
        | Escapes e => Some (LoopRaised e, S calls)
        end
      else Some (LoopDone responses, calls)
  end.

(** The records after a run of turns none of which leaves the loop;
    [None] when one of them does. *)
Fixpoint run_turns (max_wait : Z) (turns : list tick)
    (responses : list response_data) : option (list response_data) :=
  match turns with
  | [] => Some responses
  | t :: rest =>
      if before_deadline max_wait t then
        match loop_turn (recv t) responses with
        | Continue responses' => run_turns max_wait rest responses'
        | _ => None
        end
      else None
  end.

(** The fetch failures that the handler of line 113 recovers from:
    [requests.get] raises a [RequestException] (what [requests] makes of
    connection errors, timeouts and invalid URLs) or [raise_for_status]
    raises for a 4xx or 5xx status.  A failure of another kind (an
    exception that is not a [RequestException], a status outside 2xx to
    5xx) is not among them. *)
Definition fetch_fails (fetch : fetch_outcome) : bool :=
  match fetch with
  | FetchRaises e => is_request_exception e
  | FetchResponse status_code _ => ((400 <=? status_code) && (status_code <? 600))%Z
  end.

(** What every collected record of a session looks like: LOCATION is among
    its headers and is its [location]; its descriptor is the marker or the
    body of a response that the session's environment gave to a fetch. *)
Definition record_ok (script : list tick) (r : response_data) : Prop :=
  headers r !! LOCATION = Some (location r)
  /\ (device_description r = UNAVAILABLE
      \/ exists t data ip port status_code text,
           In t script
           /\ recv t = Received data ip port (FetchResponse status_code text)
           /\ device_description r = text).

(** [receive_ssdp_responses]: the outer [try], its [except Exception] and
    its [finally]. *)
Definition receive_ssdp_responses (script : list tick) (sock : socket)
    (max_wait : Z) (verbose : bool) : option receive_result :=
  match receive_loop max_wait script [] 0 with
  | None => None
  | Some (LoopDone responses, calls) =>
      Some {| recv_exit := Returned responses; recv_sock := close sock;
              recv_calls := calls |}
  | Some (LoopRaised e, calls) =>
      Some {| recv_exit := if is_exception e then Returned [] else Propagated e;
              recv_sock := close sock; recv_calls := calls |}
  end.

(** *** [main] *)

(** [main()] on parsed arguments; the trace is what the sender sent. *)
Definition main (a : args) (env : send_env) (script : list tick)
    : option main_exit * list net_event :=
  if (max_wait a <=? 0)%Z then (Some (SysExit 1), [])
  else if Qle_bool (timeout a) 0 then (Some (SysExit 1), [])
  else if (retries a <=? 0)%Z then (Some (SysExit 1), [])
  else
    let '(sent, trace) :=
      send_ssdp_discovery env (search_target a) (retries a) (timeout a) in
    match sent with
    | Propagated e => (Some (Uncaught e), trace)
    | Returned None => (Some (SysExit 1), trace)
    | Returned (Some sock) =>
        (match receive_ssdp_responses script sock (max_wait a) (verbose a) with
         | None => None
         | Some r =>
             Some match recv_exit r with
                  | Returned responses => Finished responses
                  | Propagated e => Uncaught e
                  end
         end, trace)
    end.

(** What the proofs about [str.upper] need of the runtime's case-mapping
    table, and the Unicode tables provide: upper-casing an upper-cased code
    point changes nothing; a code point that is not white space maps to a
    non-empty string free of white space; no colon is produced. *)
Definition upper_table_ok : Prop :=
  forall c, 128 <= c ->
    upper (unicode_upper c) = unicode_upper c
    /\ (is_space c = false ->
        unicode_upper c <> [] /\
        Forall (fun x => is_space x = false) (unicode_upper c))
    /\ Forall (fun x => x <> COLON) (unicode_upper c).

(** ** Notions used to state further properties *)

(** What [k] completed turns of the send loop leave in the trace: each
    datagram followed by the 100 ms pause. *)
Definition sent_events (payload : pybytes) (k : nat) : list net_event :=
  concat (replicate k [Sendto payload SSDP_ADDR SSDP_PORT; Sleep 100]).

(** The record that the loop body appends for a turn, if it appends one:
    a received datagram with a LOCATION header whose descriptor fetch
    returns or fails with a [RequestException]. *)
Definition record_of_turn (t : tick) : option response_data :=
  match recv t with
  | Received data ip port fetch =>
      let headers := parse_headers (decode_utf8_ignore data) in
      match headers !! LOCATION, fetch_device_description fetch with
      | Some location, Ok device_description =>
          Some {| ip_address := ip; port := port; headers := headers;
                  device_description := device_description;
                  location := location |}
      | _, _ => None
      end
  | RecvRaises _ => None
  end.

(** An environment whose third [sendto] is refused. *)
Definition third_send_fails : send_env :=
  {| socket_raises := None; settimeout_result := fun t => Ok t;
     sendto_raises := fun i => if (i =? 2)%nat then Some SocketError else None;
     sleep_raises := fun _ => None |}.

(** An environment interrupted during the pause after the second datagram. *)
Definition interrupted_env : send_env :=
  {| socket_raises := None; settimeout_result := fun t => Ok t;
     sendto_raises := fun _ => None;
     sleep_raises := fun i => if (i =? 1)%nat then Some BaseExc else None |}.

(** An environment without a usable network stack. *)
Definition no_socket_env : send_env :=
  {| socket_raises := Some SocketError; settimeout_result := fun t => Ok t;
     sendto_raises := fun _ => None; sleep_raises := fun _ => None |}.

(** An environment whose socket clock cannot hold the timeout asked for. *)
Definition overflow_env : send_env :=
  {| socket_raises := None; settimeout_result := fun _ => Raise OtherException;
     sendto_raises := fun _ => None; sleep_raises := fun _ => None |}.

(** A reply fetched with a status outside the classes of HTTP. *)
Definition turn_status_600 : tick :=
  {| elapsed := 2 # 10;
     recv := Received reply_with_location responder_ip 1900
               (FetchResponse 600 (str "odd")) |}.

(** Two code points are the same up to the case of an ASCII letter. *)
Definition case_variant (c1 c2 : N) : Prop :=
  c1 = c2
  \/ (65 <= c1 <= 90 /\ c2 = c1 + 32)
  \/ (65 <= c2 <= 90 /\ c1 = c2 + 32).


(** A turn whose descriptor fetch lets a socket timeout through, and a
    turn interrupted from the keyboard. *)
Definition turn_fetch_times_out : tick :=
  {| elapsed := 8 # 10;
     recv := Received reply_with_location responder_ip 1900
               (FetchRaises SocketTimeout) |}.

Definition turn_interrupted : tick :=
  {| elapsed := 9 # 10; recv := RecvRaises BaseExc |}.

(** ** The sender *)

(** The request text is the wire format with MX value [2]. *)
Lemma ssdp_request_wire (st : pystr) :
  ssdp_request st = wire_payload (str "2") st.
Proof. reflexivity. Qed.

Lemma encode_utf8_ok (s : pystr) :
  existsb is_surrogate s = false ->
  encode_utf8 s = Ok (flat_map utf8_of_code_point s).
Proof. intros H. unfold encode_utf8. now rewrite H. Qed.

Lemma encode_utf8_inv (s : pystr) (payload : pybytes) :
  encode_utf8 s = Ok payload ->
  existsb is_surrogate s = false /\ payload = flat_map utf8_of_code_point s.
Proof.
  unfold encode_utf8. destruct (existsb is_surrogate s); [discriminate|].
  intros [= <-]. split; reflexivity.
Qed.

(** Encoding goes through the fixed, ASCII, parts of the wire format. *)
Lemma utf8_wire_payload (mx st : pystr) :
  flat_map utf8_of_code_point (wire_payload mx st)
  = wire_payload (flat_map utf8_of_code_point mx) (flat_map utf8_of_code_point st).
Proof.
  unfold wire_payload. rewrite !flat_map_app. reflexivity.
Qed.

Lemma surrogate_free_request (st : pystr) :
  existsb is_surrogate (ssdp_request st) = existsb is_surrogate st.
Proof.
  rewrite ssdp_request_wire. unfold wire_payload.
  rewrite !existsb_app.
  change (existsb is_surrogate (str "M-SEARCH * HTTP/1.1")) with false.
  change (existsb is_surrogate (str "HOST: 239.255.255.250:1900")) with false.
  change (existsb is_surrogate (str "MAN: ")) with false.
  change (existsb is_surrogate (str "ssdp:discover")) with false.
  change (existsb is_surrogate (str "MX: ")) with false.
  change (existsb is_surrogate (str "2")) with false.
  change (existsb is_surrogate (str "ST: ")) with false.
  change (existsb is_surrogate CRLF) with false.
  change (existsb is_surrogate [DQUOTE]) with false.
  cbn [orb]. now rewrite orb_false_r.
Qed.

(** The bytes of the request for a given search target. *)
Lemma encode_ssdp_request (st : pystr) (payload : pybytes) :
  encode_utf8 (ssdp_request st) = Ok payload ->
  payload = wire_payload (str "2") (flat_map utf8_of_code_point st).
Proof.
  intros H. apply encode_utf8_inv in H as [_ ->].
  rewrite ssdp_request_wire. apply utf8_wire_payload.
Qed.

Lemma datagrams_app (t1 t2 : list net_event) :
  datagrams (t1 ++ t2) = datagrams t1 ++ datagrams t2.
Proof. apply flat_map_app. Qed.

(** When the request cannot be encoded, the first turn of the loop raises
    and nothing is sent. *)
Lemma send_loop_unencodable env request indices trace e :
  encode_utf8 request = Raise e ->
  snd (send_loop env request indices trace) = trace.
Proof. intros H. destruct indices; simpl; [reflexivity | now rewrite H]. Qed.

(** Otherwise every turn that is reached sends the same payload to the
    multicast group, and all turns are reached unless one raises. *)
Lemma send_loop_encodable env request payload indices trace :
  encode_utf8 request = Ok payload ->
  exists k : nat,
    (k <= length indices)%nat /\
    datagrams (snd (send_loop env request indices trace))
    = datagrams trace ++ replicate k (payload, SSDP_ADDR, SSDP_PORT) /\
    (fst (send_loop env request indices trace) = Ok tt -> k = length indices).
Proof.
  intros Henc. revert trace.
  induction indices as [|i rest IH]; intros trace; simpl.
  - exists 0%nat. rewrite app_nil_r. auto.
  - rewrite Henc. destruct (sendto_raises env i) as [e|]; simpl.
    + exists 0%nat. rewrite app_nil_r. repeat split; [lia | discriminate].
    + destruct (sleep_raises env i) as [e|]; simpl.
      * exists 1%nat. rewrite datagrams_app. repeat split; [lia | discriminate].
      * destruct (IH (trace ++ [Sendto payload SSDP_ADDR SSDP_PORT; Sleep 100]))
          as (k & Hk & Hd & Hall).
        exists (S k). repeat split; [lia | | intros H; f_equal; auto].
        rewrite Hd, datagrams_app. simpl. now rewrite <- app_assoc.
Qed.

Lemma length_range (n : Z) : length (range n) = Z.to_nat n.
Proof. unfold range. apply length_seq. Qed.

(** Whatever happens, the datagrams that leave are copies of one payload,
    the encoded request, at most [retries] of them, all for the multicast
    group. *)
Lemma send_body_datagrams env st retries timeout :
  exists k : nat,
    (k <= Z.to_nat retries)%nat /\
    datagrams (snd (send_body env st retries timeout))
    = replicate k (wire_payload (str "2") (flat_map utf8_of_code_point st),
                   SSDP_ADDR, SSDP_PORT) /\
    (forall sock, fst (send_body env st retries timeout) = Ok sock ->
                  k = Z.to_nat retries).
Proof.
  unfold send_body.
  destruct (socket_raises env) as [e|];
    [exists 0%nat; repeat split; [lia | discriminate] |].
  destruct (settimeout env _ timeout) as [sock|e];
    [| exists 0%nat; repeat split; [lia | discriminate]].
  destruct (encode_utf8 (ssdp_request st)) as [payload|e] eqn:Henc.
  - destruct (send_loop_encodable env _ payload (range retries) [] Henc)
      as (k & Hk & Hd & Hall).
    rewrite length_range in Hk, Hall.
    apply encode_ssdp_request in Henc as <-.
    destruct (send_loop env (ssdp_request st) (range retries) []) as [r trace].
    simpl in *. exists k. repeat split; [assumption.. |].
    intros sock' H. apply Hall. destruct r as [[]|]; [reflexivity | discriminate].
  - pose proof (send_loop_unencodable env _ (range retries) [] e Henc) as Ht.
    destruct (send_loop env (ssdp_request st) (range retries) []) as [r trace] eqn:Hl.
    simpl in *. subst trace. exists 0%nat. repeat split; [lia |].
    intros sock' H. destruct (range retries) as [|i rest] eqn:Hr.
    + apply (f_equal length) in Hr. rewrite length_range in Hr. simpl in Hr. lia.
    + simpl in Hl. rewrite Henc in Hl. injection Hl as <-. discriminate.
Qed.

Lemma send_trace env st retries timeout :
  snd (send_ssdp_discovery env st retries timeout)
  = snd (send_body env st retries timeout).
Proof.
  unfold send_ssdp_discovery. now destruct (send_body env st retries timeout).
Qed.

Lemma send_returns_socket env st retries timeout sock :
  fst (send_ssdp_discovery env st retries timeout) = Returned (Some sock) ->
  fst (send_body env st retries timeout) = Ok sock.
Proof.
  unfold send_ssdp_discovery.
  destruct (send_body env st retries timeout) as [[s|e] trace]; simpl.
  - now intros [= ->].
  - destruct (is_socket_error e), (is_exception e); discriminate.
Qed.

(** In an environment where no socket call raises, a request with a
    non-negative timeout and an encodable search target is sent. *)
Lemma send_succeeds env st retries timeout kept :
  socket_raises env = None ->
  settimeout_result env timeout = Ok kept ->
  (forall i, sendto_raises env i = None) ->
  (forall i, sleep_raises env i = None) ->
  Qle_bool 0 timeout = true ->
  existsb is_surrogate st = false ->
  fst (send_ssdp_discovery env st retries timeout)
  = Returned (Some {| sock_timeout := kept; sock_closed := false |}).
Proof.
  intros Hs Hkept Hsend Hsleep Ht Hst.
  unfold send_ssdp_discovery, send_body, settimeout. rewrite Hs, Ht, Hkept. simpl.
  assert (Hloop : forall indices trace,
             fst (send_loop env (ssdp_request st) indices trace) = Ok tt).
  { induction indices as [|i rest IH]; intros trace; simpl; [reflexivity|].
    rewrite encode_utf8_ok by now rewrite surrogate_free_request.
    rewrite Hsend, Hsleep. apply IH. }
  specialize (Hloop (range retries) []).
  destruct (send_loop env (ssdp_request st) (range retries) []) as [r trace].
  simpl in *. now subst r.
Qed.

(** C1.  A call of [send_ssdp_discovery] that hands back the socket has
    issued exactly [retries] datagrams, each one to 239.255.255.250:1900,
    each one with the same payload: the M-SEARCH request line, the HOST,
    MAN, MX and ST headers, the ST value being the (UTF-8 encoded) search
    target, every line closed by CR LF and the message by CR LF CR LF. *)
Theorem send_issues_retries_datagrams env st (retries : Z) timeout sock :
  (0 < retries)%Z ->
  fst (send_ssdp_discovery env st retries timeout) = Returned (Some sock) ->
  datagrams (snd (send_ssdp_discovery env st retries timeout))
  = replicate (Z.to_nat retries)
      (wire_payload (str "2") (flat_map utf8_of_code_point st),
       str "239.255.255.250", 1900%Z).
Proof.
  intros Hpos Hret. apply send_returns_socket in Hret.
  rewrite send_trace.
  destruct (send_body_datagrams env st retries timeout) as (k & _ & Hd & Hall).
  rewrite Hd. now rewrite (Hall sock Hret).
Qed.

(** *** The MX header of the payload *)

Lemma crlf_lines_from_line (l cur rest : pybytes) :
  forallb (fun c => negb (c =? CR)) l = true ->
  crlf_lines_from cur (l ++ CR :: LF :: rest)
  = (cur ++ l) :: crlf_lines_from [] rest.
Proof.
  revert cur. induction l as [|c l IH]; intros cur Hl.
  - simpl. now rewrite app_nil_r.
  - simpl in Hl. apply andb_prop in Hl as [Hc Hl].
    apply negb_true_iff in Hc.
    change ((c :: l) ++ CR :: LF :: rest) with (c :: (l ++ CR :: LF :: rest)).
    cbn [crlf_lines_from].
    destruct (l ++ CR :: LF :: rest) as [|c' rest'] eqn:Heq.
    + destruct l; discriminate.
    + rewrite Hc. cbn [andb]. rewrite IH by assumption.
      now rewrite <- app_assoc.
Qed.

(** The fourth line of the wire format is the MX header. *)
Lemma crlf_lines_wire_payload (mx st : pybytes) :
  forallb (fun c => negb (c =? CR)) mx = true ->
  exists rest,
    crlf_lines (wire_payload mx st)
    = str "M-SEARCH * HTTP/1.1"
      :: str "HOST: 239.255.255.250:1900"
      :: (str "MAN: " ++ [DQUOTE] ++ str "ssdp:discover" ++ [DQUOTE])
      :: (str "MX: " ++ mx)
      :: rest.
Proof.
  intros Hmx. eexists. unfold crlf_lines.
  change (wire_payload mx st) with
    (str "M-SEARCH * HTTP/1.1" ++ CR :: LF ::
     (str "HOST: 239.255.255.250:1900" ++ CR :: LF ::
      ((str "MAN: " ++ [DQUOTE] ++ str "ssdp:discover" ++ [DQUOTE]) ++ CR :: LF ::
       ((str "MX: " ++ mx) ++ CR :: LF ::
        (str "ST: " ++ st ++ CRLF ++ CRLF))))).
  rewrite crlf_lines_from_line by reflexivity.
  rewrite crlf_lines_from_line by reflexivity.
  rewrite crlf_lines_from_line by reflexivity.
  rewrite crlf_lines_from_line by (rewrite forallb_app; now rewrite Hmx).
  reflexivity.
Qed.

Lemma has_line_mx_2 (st : pybytes) :
  has_line (str "MX: 2") (wire_payload (str "2") st) = true.
Proof.
  unfold has_line.
  destruct (crlf_lines_wire_payload (str "2") st eq_refl) as [rest ->].
  reflexivity.
Qed.

Lemma elem_of_replicate_eq {A : Type} (n : nat) (x y : A) :
  In y (replicate n x) -> y = x.
Proof. induction n as [|n IH]; simpl; [tauto | intros [<-|H]; auto]. Qed.

(** What [main] sends is what [send_ssdp_discovery] sends, if anything. *)
Lemma main_trace (a : args) env script :
  snd (main a env script) = []
  \/ snd (main a env script)
     = snd (send_ssdp_discovery env (search_target a) (retries a) (timeout a)).
Proof.
  unfold main.
  destruct (max_wait a <=? 0)%Z; [now left|].
  destruct (Qle_bool (timeout a) 0); [now left|].
  destruct (retries a <=? 0)%Z; [now left|].
  right.
  destruct (send_ssdp_discovery env (search_target a) (retries a) (timeout a))
    as [[[sock|]|e] trace]; reflexivity.
Qed.

(** C4 (as amended).  Whatever value the [-mx/--max_wait] flag is given,
    every datagram sent by [main] carries the MX header line [MX: 2], the
    constant [SSDP_MX]; the flag only bounds the receive window. *)
Theorem main_payload_mx_is_constant (a : args) env script payload addr port :
  In (payload, addr, port) (datagrams (snd (main a env script))) ->
  has_line (str "MX: " ++ format_int SSDP_MX) payload = true.
Proof.
  intros Hin.
  destruct (main_trace a env script) as [Ht|Ht]; rewrite Ht in Hin;
    [contradiction|].
  rewrite send_trace in Hin.
  destruct (send_body_datagrams env (search_target a) (retries a) (timeout a))
    as (k & _ & Hd & _).
  rewrite Hd in Hin. apply elem_of_replicate_eq in Hin.
  injection Hin as -> _ _. apply has_line_mx_2.
Qed.

(** ** Header parsing *)

(** *** Trimming *)

Lemma lstrip_starts_clean (s : pystr) : starts_clean (lstrip s).
Proof.
  induction s as [|c s IH]; simpl; [exact I|].
  destruct (is_space c) eqn:Hc; [exact IH | exact Hc].
Qed.

Lemma lstrip_clean (s : pystr) : starts_clean s -> lstrip s = s.
Proof. destruct s as [|c s]; simpl; [reflexivity | now intros ->]. Qed.

Lemma rstrip_starts_clean (s : pystr) : starts_clean s -> starts_clean (rstrip s).
Proof.
  destruct s as [|c s]; simpl; [exact id|]. intros Hc.
  destruct (rstrip s); [rewrite Hc|]; exact Hc.
Qed.

Lemma rstrip_rstrip (s : pystr) : rstrip (rstrip s) = rstrip s.
Proof.
  induction s as [|c s IH]; simpl; [reflexivity|].
  destruct (rstrip s) as [|k kept] eqn:Hk.
  - destruct (is_space c) eqn:Hc; simpl; [reflexivity | now rewrite Hc].
  - change (rstrip (c :: k :: kept)) with
      (match rstrip (k :: kept) with
       | [] => if is_space c then [] else [c]
       | kept' => c :: kept'
       end).
    now rewrite IH.
Qed.

Lemma strip_starts_clean (s : pystr) : starts_clean (strip s).
Proof. apply rstrip_starts_clean, lstrip_starts_clean. Qed.

Lemma rstrip_strip (s : pystr) : rstrip (strip s) = strip s.
Proof. apply rstrip_rstrip. Qed.

(** [strip] is idempotent. *)
Lemma strip_strip (s : pystr) : strip (strip s) = strip s.
Proof.
  unfold strip at 1. rewrite lstrip_clean by apply strip_starts_clean.
  apply rstrip_strip.
Qed.

Lemma rstrip_all_clean (s : pystr) :
  Forall (fun x => is_space x = false) s -> rstrip s = s.
Proof.
  induction 1 as [|c s Hc _ IH]; simpl; [reflexivity|].
  rewrite IH. destruct s; [now rewrite Hc | reflexivity].
Qed.

Lemma rstrip_app_fixed (a b : pystr) :
  b <> [] -> rstrip b = b -> rstrip (a ++ b) = a ++ b.
Proof.
  intros Hb Hfix. induction a as [|c a IH]; simpl; [exact Hfix|].
  rewrite IH. destruct (a ++ b) eqn:Hab; [|reflexivity].
  apply app_eq_nil in Hab as [_ ?]. contradiction.
Qed.

Lemma rstrip_fixed_inv (s : pystr) :
  rstrip s = s ->
  s = [] \/ exists s' c, s = s' ++ [c] /\ is_space c = false.
Proof.
  induction s as [|c s IH]; [now left|]. simpl. intros H. right.
  destruct (rstrip s) as [|k kept] eqn:Hk.
  - destruct (is_space c) eqn:Hc; [discriminate|].
    injection H as <-. exists [], c. split; [reflexivity | exact Hc].
  - injection H as H. destruct (IH H) as [->|(s' & c' & -> & Hc')];
      [discriminate|].
    exists (c :: s'), c'. split; [reflexivity | exact Hc'].
Qed.

Lemma Forall_lstrip (P : N -> Prop) (s : pystr) :
  Forall P s -> Forall P (lstrip s).
Proof.
  induction 1 as [|c s Hc Hs IH]; simpl; [constructor|].
  destruct (is_space c); [exact IH | now constructor].
Qed.

Lemma Forall_rstrip (P : N -> Prop) (s : pystr) :
  Forall P s -> Forall P (rstrip s).
Proof.
  induction 1 as [|c s Hc Hs IH]; simpl; [constructor|].
  destruct (rstrip s);
    [destruct (is_space c); repeat constructor; assumption
    | constructor; assumption].
Qed.

Lemma Forall_strip (P : N -> Prop) (s : pystr) :
  Forall P s -> Forall P (strip s).
Proof. intros H. now apply Forall_rstrip, Forall_lstrip. Qed.

(** *** Splitting at the first colon *)

Lemma split1_before (c : N) (s : pystr) :
  Forall (fun x => x <> c) (fst (split1 c s)).
Proof.
  induction s as [|x s IH]; simpl; [constructor|].
  destruct (N.eqb_spec x c) as [->|Hne]; [constructor|].
  destruct (split1 c s) as [before after]. simpl in *. now constructor.
Qed.

Lemma split1_app (c : N) (before after : pystr) :
  Forall (fun x => x <> c) before ->
  split1 c (before ++ c :: after) = (before, after).
Proof.
  induction 1 as [|x s Hx _ IH]; simpl.
  - now rewrite N.eqb_refl.
  - apply N.eqb_neq in Hx. now rewrite Hx, IH.
Qed.

Lemma in_str_app_colon (c : N) (before after : pystr) :
  in_str c (before ++ c :: after) = true.
Proof.
  unfold in_str. rewrite existsb_app. simpl. rewrite N.eqb_refl.
  now rewrite orb_true_r.
Qed.

(** *** Upper-casing *)

Lemma upper_app (a b : pystr) : upper (a ++ b) = upper a ++ upper b.
Proof. apply flat_map_app. Qed.

Lemma is_space_printable (x : N) : 33 <= x <= 132 -> is_space x = false.
Proof.
  intros Hx. unfold is_space.
  repeat (apply orb_false_intro);
    try (apply N.eqb_neq; lia);
    apply andb_false_iff;
    ((left; apply N.leb_gt; lia) || (right; apply N.leb_gt; lia)).
Qed.

(** The ASCII half of the case mapping. *)
Lemma upper_ascii (c : N) :
  c < 128 ->
  upper_code_point c = [c] \/ (97 <= c <= 122 /\ upper_code_point c = [c - 32]).
Proof.
  intros Hc. unfold upper_code_point.
  apply N.ltb_lt in Hc as ->.
  destruct (N.leb_spec 97 c), (N.leb_spec c 122); simpl; auto.
Qed.

Section UpperTable.

Hypothesis table_ok : upper_table_ok.

Lemma upper_code_point_idem (c : N) :
  upper (upper_code_point c) = upper_code_point c.
Proof.
  destruct (N.lt_ge_cases c 128) as [Hc|Hc].
  - destruct (upper_ascii c Hc) as [H|[Hr H]]; rewrite H.
    + unfold upper. simpl. now rewrite app_nil_r.
    + unfold upper, upper_code_point. simpl.
      replace (c - 32 <? 128) with true by (symmetry; apply N.ltb_lt; lia).
      replace (97 <=? c - 32) with false by (symmetry; apply N.leb_gt; lia).
      reflexivity.
  - unfold upper_code_point at 1 2.
    replace (c <? 128) with false by (symmetry; apply N.ltb_ge; lia).
    apply table_ok, Hc.
Qed.

(** [upper] is idempotent. *)
Lemma upper_upper (s : pystr) : upper (upper s) = upper s.
Proof.
  induction s as [|c s IH]; [reflexivity|].
  change (upper (c :: s)) with (upper_code_point c ++ upper s).
  now rewrite upper_app, upper_code_point_idem, IH.
Qed.

Lemma upper_code_point_clean (c : N) :
  is_space c = false ->
  upper_code_point c <> [] /\
  Forall (fun x => is_space x = false) (upper_code_point c).
Proof.
  intros Hsp. destruct (N.lt_ge_cases c 128) as [Hc|Hc].
  - destruct (upper_ascii c Hc) as [->|[Hr ->]].
    + split; [discriminate | now repeat constructor].
    + split; [discriminate|]. repeat constructor.
      apply is_space_printable. lia.
  - unfold upper_code_point.
    replace (c <? 128) with false by (symmetry; apply N.ltb_ge; lia).
    now apply table_ok.
Qed.

Lemma upper_code_point_no_colon (c : N) :
  c <> COLON -> Forall (fun x => x <> COLON) (upper_code_point c).
Proof.
  intros Hne. destruct (N.lt_ge_cases c 128) as [Hc|Hc].
  - destruct (upper_ascii c Hc) as [->|[Hr ->]]; repeat constructor;
      [exact Hne | unfold COLON; lia].
  - unfold upper_code_point.
    replace (c <? 128) with false by (symmetry; apply N.ltb_ge; lia).
    now apply table_ok.
Qed.

Lemma upper_no_colon (s : pystr) :
  Forall (fun x => x <> COLON) s -> Forall (fun x => x <> COLON) (upper s).
Proof.
  induction 1 as [|c s Hc _ IH]; [constructor|].
  change (upper (c :: s)) with (upper_code_point c ++ upper s).
  apply Forall_app. split; [now apply upper_code_point_no_colon | exact IH].
Qed.

Lemma upper_starts_clean (s : pystr) : starts_clean s -> starts_clean (upper s).
Proof.
  destruct s as [|c s]; [exact id|]. simpl. intros Hc.
  destruct (upper_code_point_clean c Hc) as [Hne Hall].
  change (upper (c :: s)) with (upper_code_point c ++ upper s).
  destruct (upper_code_point c) as [|x t]; [contradiction|].
  simpl. now inversion Hall.
Qed.

Lemma upper_rstrip_fixed (s : pystr) : rstrip s = s -> rstrip (upper s) = upper s.
Proof.
  intros H. destruct (rstrip_fixed_inv s H) as [->|(s' & c & -> & Hc)];
    [reflexivity|].
  rewrite upper_app.
  destruct (upper_code_point_clean c Hc) as [Hne Hall].
  apply rstrip_app_fixed.
  - unfold upper. simpl. now rewrite app_nil_r.
  - apply rstrip_all_clean. unfold upper. simpl. now rewrite app_nil_r.
Qed.

(** A normalised key is left alone by the normalisation. *)
Lemma normalise_key_idem (key : pystr) :
  upper (strip (upper (strip key))) = upper (strip key).
Proof.
  assert (Hs : strip (upper (strip key)) = upper (strip key)).
  { unfold strip at 1.
    rewrite lstrip_clean by apply upper_starts_clean, strip_starts_clean.
    apply upper_rstrip_fixed, rstrip_strip. }
  rewrite Hs. apply upper_upper.
Qed.

Lemma parse_line_reparse (line key value : pystr) :
  parse_line line = Some (key, value) ->
  parse_line (key ++ COLON :: value) = Some (key, value).
Proof.
  unfold parse_line at 1.
  destruct (in_str COLON line); [|discriminate].
  pose proof (split1_before COLON line) as Hbefore.
  destruct (split1 COLON line) as [k0 v0]. simpl in Hbefore.
  intros [= <- <-].
  assert (Hkey : Forall (fun x => x <> COLON) (upper (strip k0)))
    by now apply upper_no_colon, Forall_strip.
  unfold parse_line. rewrite in_str_app_colon, split1_app by exact Hkey.
  now rewrite normalise_key_idem, strip_strip.
Qed.

End UpperTable.

Lemma in_str_false (c : N) (s : pystr) :
  in_str c s = false <-> Forall (fun x => x <> c) s.
Proof.
  unfold in_str. induction s as [|x s IH]; simpl.
  - split; [constructor | reflexivity].
  - rewrite orb_false_iff, IH, N.eqb_neq. split.
    + intros [Hx Hs]. constructor; [congruence | exact Hs].
    + intros H. inversion H; subst. split; [congruence | assumption].
Qed.

(** *** Names that differ in the case of ASCII letters *)

Lemma case_variant_is_space (c1 c2 : N) :
  case_variant c1 c2 -> is_space c1 = is_space c2.
Proof.
  intros [->|[[H ->]|[H ->]]]; [reflexivity| |];
    rewrite !is_space_printable by lia; reflexivity.
Qed.

Lemma case_variant_colon (c1 c2 : N) :
  case_variant c1 c2 -> c1 <> COLON -> c2 <> COLON.
Proof. unfold COLON. intros [->|[[H ->]|[H ->]]] Hne; [exact Hne | lia | lia]. Qed.

Lemma upper_code_point_capital (c : N) :
  65 <= c <= 90 ->
  upper_code_point c = [c] /\ upper_code_point (c + 32) = [c].
Proof.
  intros Hc. unfold upper_code_point.
  replace (c <? 128) with true by (symmetry; apply N.ltb_lt; lia).
  replace (c + 32 <? 128) with true by (symmetry; apply N.ltb_lt; lia).
  replace (97 <=? c) with false by (symmetry; apply N.leb_gt; lia).
  replace (97 <=? c + 32) with true by (symmetry; apply N.leb_le; lia).
  replace (c + 32 <=? 122) with true by (symmetry; apply N.leb_le; lia).
  simpl. split; [reflexivity|]. f_equal. lia.
Qed.

Lemma case_variant_upper (c1 c2 : N) :
  case_variant c1 c2 -> upper_code_point c1 = upper_code_point c2.
Proof.
  intros [->|[[H ->]|[H ->]]]; [reflexivity| |];
    destruct (upper_code_point_capital _ H) as [H1 H2]; congruence.
Qed.

Lemma case_variants_lstrip (a b : pystr) :
  Forall2 case_variant a b -> Forall2 case_variant (lstrip a) (lstrip b).
Proof.
  induction 1 as [|c1 c2 a b Hc Hab IH]; simpl; [constructor|].
  rewrite <- (case_variant_is_space c1 c2 Hc).
  destruct (is_space c1); [exact IH | now constructor].
Qed.

Lemma case_variants_rstrip (a b : pystr) :
  Forall2 case_variant a b -> Forall2 case_variant (rstrip a) (rstrip b).
Proof.
  induction 1 as [|c1 c2 a b Hc Hab IH]; simpl; [constructor|].
  rewrite <- (case_variant_is_space c1 c2 Hc).
  destruct (rstrip a), (rstrip b); try (now inversion IH).
  - destruct (is_space c1); [constructor | constructor; [assumption | constructor]].
  - constructor; assumption.
Qed.

Lemma case_variants_upper (a b : pystr) :
  Forall2 case_variant a b -> upper a = upper b.
Proof.
  induction 1 as [|c1 c2 a b Hc Hab IH]; [reflexivity|].
  change (upper (c1 :: a)) with (upper_code_point c1 ++ upper a).
  change (upper (c2 :: b)) with (upper_code_point c2 ++ upper b).
  now rewrite (case_variant_upper c1 c2 Hc), IH.
Qed.

Lemma case_variants_no_colon (a b : pystr) :
  Forall2 case_variant a b ->
  Forall (fun x => x <> COLON) a -> Forall (fun x => x <> COLON) b.
Proof.
  induction 1 as [|c1 c2 a b Hc Hab IH]; [constructor|].
  intros H. inversion H; subst.
  constructor; [now apply (case_variant_colon c1) | now apply IH].
Qed.

(** Lines whose names differ only in the case of ASCII letters, with the
    same text after the colon, parse to the same entry. *)
Lemma parse_line_case_variants (name1 name2 text : pystr) :
  Forall2 case_variant name1 name2 ->
  in_str COLON name1 = false ->
  parse_line (name1 ++ COLON :: text) = parse_line (name2 ++ COLON :: text).
Proof.
  intros Hcv H1. apply in_str_false in H1.
  pose proof (case_variants_no_colon _ _ Hcv H1) as H2.
  unfold parse_line. rewrite !in_str_app_colon, !split1_app by assumption.
  do 2 f_equal. apply case_variants_upper.
  unfold strip. now apply case_variants_rstrip, case_variants_lstrip.
Qed.

(** C5.  Header parsing is idempotent and case-insensitive on keys: the
    entry [key, value] parsed from a header line, written back as the line
    [key:value], parses to the same entry again; two lines whose names
    differ only in the case of ASCII letters, followed by the same text,
    parse to the same entry; and the datagram texts [Location: http://x]
    CR LF and [LOCATION:http://x] both parse to the mapping that sends
    [LOCATION] to [http://x].  The case mapping of non-ASCII code points is
    the runtime's; it enters through [upper_table_ok]. *)
Theorem header_parsing_idempotent :
  upper_table_ok ->
  (forall line key value,
      parse_line line = Some (key, value) ->
      parse_line (key ++ COLON :: value) = Some (key, value))
  /\ (forall name1 name2 text,
        Forall2 case_variant name1 name2 ->
        in_str COLON name1 = false ->
        parse_line (name1 ++ COLON :: text) = parse_line (name2 ++ COLON :: text))
  /\ parse_headers (str "Location: http://x" ++ CRLF)
     = {[ str "LOCATION" := str "http://x" ]}
  /\ parse_headers (str "LOCATION:http://x")
     = {[ str "LOCATION" := str "http://x" ]}.
Proof.
  intros Htable. split; [|split; [|split]].
  - intros line key value. now apply parse_line_reparse.
  - intros name1 name2 text. apply parse_line_case_variants.
  - reflexivity.
  - reflexivity.
Qed.

(** *** Duplicate header names *)

(** A line that adds no entry for [key] leaves the value of [key] alone. *)
Lemma add_line_other (m : gmap pystr pystr) (line key : pystr) :
  (forall value, parse_line line <> Some (key, value)) ->
  add_line m line !! key = m !! key.
Proof.
  intros Hne. unfold add_line.
  destruct (parse_line line) as [[k v]|] eqn:Hp; [|reflexivity].
  apply lookup_insert_ne. intros ->. now apply (Hne v).
Qed.

Lemma add_lines_other (lines : list pystr) (m : gmap pystr pystr) (key : pystr) :
  (forall l value, In l lines -> parse_line l <> Some (key, value)) ->
  fold_left add_line lines m !! key = m !! key.
Proof.
  revert m. induction lines as [|l lines IH]; intros m Hne; [reflexivity|].
  simpl. rewrite IH by (intros l' v' Hin; apply Hne; now right).
  apply add_line_other. intros v. apply Hne. now left.
Qed.

(** C6.  Among the lines of a datagram that carry the same header name
    (after trimming and upper-casing the key), the last one decides: the
    parsed headers map the name to the value of that line. *)
Theorem last_header_line_wins (data : pybytes) (before after : list pystr)
    (line key value : pystr) :
  splitlines (decode_utf8_ignore data) = before ++ line :: after ->
  parse_line line = Some (key, value) ->
  (forall l v, In l after -> parse_line l <> Some (key, v)) ->
  parse_headers (decode_utf8_ignore data) !! key = Some value.
Proof.
  intros Hlines Hline Hlast. unfold parse_headers.
  rewrite Hlines, fold_left_app. simpl.
  rewrite add_lines_other by exact Hlast.
  unfold add_line. rewrite Hline. apply lookup_insert_eq.
Qed.

(** ** The collector *)

(** Turns that stay in the loop only move its state forward. *)
Lemma receive_loop_app max_wait (turns rest : list tick)
    (responses responses' : list response_data) (calls : nat) :
  run_turns max_wait turns responses = Some responses' ->
  receive_loop max_wait (turns ++ rest) responses calls
  = receive_loop max_wait rest responses' (length turns + calls).
Proof.
  revert responses calls.
  induction turns as [|t turns IH]; intros responses calls; simpl.
  - now intros [= ->].
  - destruct (before_deadline max_wait t); [|discriminate].
    destruct (loop_turn (recv t) responses) as [rs| |e]; try discriminate.
    intros H. rewrite (IH _ _ H). f_equal. lia.
Qed.

Lemma process_datagram_grows data ip port fetch responses responses' :
  process_datagram data ip port fetch responses = Ok responses' ->
  exists added, responses' = responses ++ added.
Proof.
  unfold process_datagram.
  destruct (parse_headers (decode_utf8_ignore data) !! LOCATION) as [loc|].
  - destruct (fetch_device_description fetch) as [d|e]; simpl; [|discriminate].
    intros [= <-]. eauto.
  - intros [= <-]. exists []. now rewrite app_nil_r.
Qed.

Lemma loop_turn_grows r responses responses' :
  loop_turn r responses = Continue responses' ->
  exists added, responses' = responses ++ added.
Proof.
  unfold loop_turn. destruct (loop_body r responses) as [rs|e] eqn:Hb.
  - intros [= <-]. destruct r; simpl in Hb; [|discriminate].
    now apply process_datagram_grows in Hb.
  - destruct (is_socket_timeout e), (is_socket_error e); discriminate.
Qed.

(** Records are never taken out of the list while the loop runs. *)
Lemma receive_loop_grows max_wait script responses calls out calls' :
  receive_loop max_wait script responses calls = Some (LoopDone out, calls') ->
  exists added, out = responses ++ added.
Proof.
  revert responses calls.
  induction script as [|t script IH]; intros responses calls; simpl;
    [discriminate|].
  destruct (before_deadline max_wait t).
  - destruct (loop_turn (recv t) responses) as [rs| |e] eqn:Ht.
    + intros H. apply IH in H as [added2 ->].
      apply loop_turn_grows in Ht as [added1 ->].
      exists (added1 ++ added2). now rewrite app_assoc.
    + intros [= <- _]. exists []. now rewrite app_nil_r.
    + discriminate.
  - intros [= <- _]. exists []. now rewrite app_nil_r.
Qed.

(** A failed fetch yields the marker instead of raising. *)
Lemma fetch_fails_unavailable fetch :
  fetch_fails fetch = true ->
  fetch_device_description fetch = Ok UNAVAILABLE.
Proof.
  unfold fetch_fails, fetch_device_description.
  destruct fetch as [status_code text|e]; simpl.
  - unfold raise_for_status. now intros ->.
  - now intros ->.
Qed.

Lemma run_turns_app max_wait (turns more : list tick)
    (responses responses' : list response_data) :
  run_turns max_wait turns responses = Some responses' ->
  run_turns max_wait (turns ++ more) responses
  = run_turns max_wait more responses'.
Proof.
  revert responses. induction turns as [|t turns IH]; intros responses; simpl.
  - now intros [= ->].
  - destruct (before_deadline max_wait t); [|discriminate].
    destruct (loop_turn (recv t) responses); try discriminate. apply IH.
Qed.

Lemma run_turns_grows max_wait (turns : list tick)
    (responses responses' : list response_data) :
  run_turns max_wait turns responses = Some responses' ->
  exists added, responses' = responses ++ added.
Proof.
  revert responses. induction turns as [|t turns IH]; intros responses; simpl.
  - intros [= <-]. exists []. now rewrite app_nil_r.
  - destruct (before_deadline max_wait t); [|discriminate].
    destruct (loop_turn (recv t) responses) as [rs| |e] eqn:Ht; try discriminate.
    intros H. apply IH in H as [added2 ->].
    apply loop_turn_grows in Ht as [added1 ->].
    exists (added1 ++ added2). now rewrite app_assoc.
Qed.

(** C2 (as amended).  A datagram with a LOCATION header whose descriptor
    fetch fails with a [RequestException] (what [requests] raises for its
    connection errors, timeouts and invalid URLs) or with a 4xx/5xx status
    is not lost: the turn appends its record, with descriptor
    [Unavailable], the loop goes on with the turns that follow, and when
    the session then ends at the deadline or by a [break] (socket timeout,
    socket error), the list that [receive_ssdp_responses] returns holds the
    record. *)
Theorem fetch_failure_keeps_record max_wait (turns more rest : list tick)
    (collected collected' : list response_data) (t stop : tick)
    data ip port fetch (location : pystr) sock verbose :
  run_turns max_wait turns [] = Some collected ->
  before_deadline max_wait t = true ->
  recv t = Received data ip port fetch ->
  parse_headers (decode_utf8_ignore data) !! LOCATION = Some location ->
  fetch_fails fetch = true ->
  let record :=
    {| ip_address := ip; port := port;
       headers := parse_headers (decode_utf8_ignore data);
       device_description := str "Unavailable";
       location := location |} in
  run_turns max_wait more (collected ++ [record]) = Some collected' ->
  before_deadline max_wait stop = false
  \/ loop_turn (recv stop) collected' = Break ->
  loop_turn (recv t) collected = Continue (collected ++ [record])
  /\ In record collected'
  /\ exists calls,
       receive_ssdp_responses (turns ++ t :: more ++ stop :: rest)
         sock max_wait verbose
       = Some {| recv_exit := Returned collected'; recv_sock := close sock;
                 recv_calls := calls |}.
Proof.
  intros Hturns Hwin Hrecv Hloc Hfail record Hmore Hstop.
  assert (Hturn : loop_turn (recv t) collected = Continue (collected ++ [record])).
  { unfold loop_turn, loop_body, process_datagram.
    rewrite Hrecv, Hloc, (fetch_fails_unavailable _ Hfail). reflexivity. }
  split; [exact Hturn|]. split.
  - apply run_turns_grows in Hmore as [added ->].
    apply in_or_app. left. apply in_or_app. right. now left.
  - assert (Hall : run_turns max_wait (turns ++ t :: more) [] = Some collected').
    { rewrite (run_turns_app _ _ _ _ _ Hturns). simpl.
      now rewrite Hwin, Hturn. }
    unfold receive_ssdp_responses.
    replace (turns ++ t :: more ++ stop :: rest)
      with ((turns ++ t :: more) ++ stop :: rest)
      by (rewrite <- app_assoc; reflexivity).
    rewrite (receive_loop_app _ _ _ _ _ _ Hall). simpl.
    destruct (before_deadline max_wait stop); [|eauto].
    destruct Hstop as [Hstop|Hstop]; [discriminate|].
    rewrite Hstop. eauto.
Qed.

(** The call when the turn after [turns] raises [e] at [recvfrom] or while
    the datagram is processed. *)
Lemma receive_raise max_wait (turns rest : list tick)
    (collected : list response_data) (t : tick) (e : exn) sock verbose :
  run_turns max_wait turns [] = Some collected ->
  before_deadline max_wait t = true ->
  loop_body (recv t) collected = Raise e ->
  receive_ssdp_responses (turns ++ t :: rest) sock max_wait verbose
  = Some {| recv_exit :=
              if is_socket_error e then Returned collected
              else if is_exception e then Returned []
              else Propagated e;
            recv_sock := close sock;
            recv_calls := S (length turns) |}.
Proof.
  intros Hturns Hwin Hbody. unfold receive_ssdp_responses.
  rewrite (receive_loop_app _ _ _ _ _ _ Hturns). simpl.
  unfold loop_turn. rewrite Hwin, Hbody.
  replace (length turns + 0)%nat with (length turns) by lia.
  destruct e; reflexivity.
Qed.

(** C3.  When [recvfrom] raises an exception [e] in some turn, the loop
    ends there ([recvfrom] is not called again), the socket is closed and
    the call returns a list, never passing [e] on; when [e] is a socket
    error (a timeout or any other), the list is exactly the records
    collected so far. *)
Theorem socket_error_returns_partial max_wait (turns rest : list tick)
    (collected : list response_data) (t : tick) (e : exn) sock verbose :
  run_turns max_wait turns [] = Some collected ->
  before_deadline max_wait t = true ->
  recv t = RecvRaises e ->
  is_exception e = true ->
  exists out,
    receive_ssdp_responses (turns ++ t :: rest) sock max_wait verbose
    = Some {| recv_exit := Returned out; recv_sock := close sock;
              recv_calls := S (length turns) |}
    /\ (is_socket_error e = true -> out = collected).
Proof.
  intros Hturns Hwin Hrecv Hexc.
  assert (Hbody : loop_body (recv t) collected = Raise e) by now rewrite Hrecv.
  rewrite (receive_raise _ _ rest _ _ _ sock verbose Hturns Hwin Hbody).
  rewrite Hexc. destruct (is_socket_error e); eexists; split; eauto; discriminate.
Qed.

(** C8.  When a [recvfrom] ends in [socket.timeout], the loop ends at once:
    the call returns the records collected so far and [recvfrom] is not
    called again, whatever the rest of the session would have brought and
    whether or not the deadline has passed. *)
Theorem timeout_ends_loop max_wait (turns rest : list tick)
    (collected : list response_data) (t : tick) sock verbose :
  run_turns max_wait turns [] = Some collected ->
  before_deadline max_wait t = true ->
  recv t = RecvRaises SocketTimeout ->
  receive_ssdp_responses (turns ++ t :: rest) sock max_wait verbose
  = Some {| recv_exit := Returned collected; recv_sock := close sock;
            recv_calls := S (length turns) |}.
Proof.
  intros Hturns Hwin Hrecv.
  assert (Hbody : loop_body (recv t) collected = Raise SocketTimeout)
    by now rewrite Hrecv.
  now rewrite (receive_raise _ _ rest _ _ _ sock verbose Hturns Hwin Hbody).
Qed.

(** C9.  When a turn of the loop raises an [Exception] that is neither a
    socket timeout nor a socket error, the call returns the empty list,
    whatever had been collected, and the socket is closed. *)
Theorem unexpected_exception_returns_empty max_wait (turns rest : list tick)
    (collected : list response_data) (t : tick) (e : exn) sock verbose :
  run_turns max_wait turns [] = Some collected ->
  before_deadline max_wait t = true ->
  loop_body (recv t) collected = Raise e ->
  is_exception e = true ->
  is_socket_error e = false ->
  exists result,
    receive_ssdp_responses (turns ++ t :: rest) sock max_wait verbose
    = Some result
    /\ recv_exit result = Returned []
    /\ sock_closed (recv_sock result) = true.
Proof.
  intros Hturns Hwin Hbody Hexc Hsock.
  rewrite (receive_raise _ _ rest _ _ _ sock verbose Hturns Hwin Hbody).
  rewrite Hexc, Hsock. eexists. repeat split.
Qed.

(** A datagram without LOCATION leaves the records as they are. *)
Lemma loop_turn_no_location data ip port fetch responses :
  parse_headers (decode_utf8_ignore data) !! LOCATION = None ->
  loop_turn (Received data ip port fetch) responses = Continue responses.
Proof.
  intros Hloc. unfold loop_turn, loop_body, process_datagram. now rewrite Hloc.
Qed.

Lemma receive_loop_no_location max_wait (script : list tick) (calls : nat) :
  (forall t data ip port fetch,
      In t script -> recv t = Received data ip port fetch ->
      parse_headers (decode_utf8_ignore data) !! LOCATION = None) ->
  (forall t e, In t script -> recv t = RecvRaises e -> is_exception e = true) ->
  (exists t, In t script /\ before_deadline max_wait t = false) ->
  exists exit calls',
    receive_loop max_wait script [] calls = Some (exit, calls')
    /\ (exit = LoopDone []
        \/ exists e, exit = LoopRaised e /\ is_exception e = true).
Proof.
  revert calls.
  induction script as [|t script IH]; intros calls Hloc Hexc (t0 & Hin & Ht0);
    [contradiction|].
  simpl. destruct (before_deadline max_wait t) eqn:Hwin; [|eauto].
  destruct (recv t) as [data ip port fetch|e] eqn:Hrecv.
  - rewrite (loop_turn_no_location _ _ _ _ _
               (Hloc t data ip port fetch (or_introl eq_refl) Hrecv)).
    apply IH.
    + intros t' data' ip' port' fetch' Hin'. apply Hloc. now right.
    + intros t' e' Hin'. apply Hexc. now right.
    + destruct Hin as [<-|Hin]; [congruence | eauto].
  - pose proof (Hexc t e (or_introl eq_refl) Hrecv) as He.
    unfold loop_turn, loop_body.
    destruct (is_socket_timeout e); [eauto|].
    destruct (is_socket_error e); [eauto|].
    exists (LoopRaised e), (S calls). split; [reflexivity|]. right. eauto.
Qed.

(** C7.  A datagram whose headers have no LOCATION adds no record; and a
    session in which no datagram has one, run until the deadline passes
    (with no interrupt from outside [Exception]), returns the empty list. *)
Theorem no_location_no_record max_wait (script : list tick) sock verbose :
  (forall t data ip port fetch,
      In t script -> recv t = Received data ip port fetch ->
      parse_headers (decode_utf8_ignore data) !! LOCATION = None) ->
  (forall t e, In t script -> recv t = RecvRaises e -> is_exception e = true) ->
  (exists t, In t script /\ before_deadline max_wait t = false) ->
  (forall t data ip port fetch responses,
      In t script -> recv t = Received data ip port fetch ->
      loop_turn (recv t) responses = Continue responses)
  /\ exists calls,
      receive_ssdp_responses script sock max_wait verbose
      = Some {| recv_exit := Returned []; recv_sock := close sock;
                recv_calls := calls |}.
Proof.
  intros Hloc Hexc Hend. split.
  - intros t data ip port fetch responses Hin Hrecv. rewrite Hrecv.
    apply loop_turn_no_location. eauto.
  - destruct (receive_loop_no_location max_wait script 0 Hloc Hexc Hend)
      as (exit & calls & Hloop & [->|(e & -> & He)]);
      exists calls; unfold receive_ssdp_responses; rewrite Hloop;
      [|rewrite He]; reflexivity.
Qed.

(** *** The invariant of the collected records *)

Lemma fetch_device_description_inv fetch d :
  fetch_device_description fetch = Ok d ->
  d = UNAVAILABLE \/ exists status_code text,
                      fetch = FetchResponse status_code text /\ d = text.
Proof.
  unfold fetch_device_description.
  destruct fetch as [status_code text|e]; simpl.
  - unfold raise_for_status.
    destruct ((400 <=? status_code) && (status_code <? 600))%Z; simpl;
      intros [= <-]; eauto.
  - destruct (is_request_exception e); simpl; [|discriminate].
    intros [= <-]. now left.
Qed.

Lemma loop_turn_record_ok script t responses responses' :
  In t script ->
  Forall (record_ok script) responses ->
  loop_turn (recv t) responses = Continue responses' ->
  Forall (record_ok script) responses'.
Proof.
  intros Hin Hok. unfold loop_turn.
  destruct (loop_body (recv t) responses) as [rs|e] eqn:Hbody;
    [|destruct (is_socket_timeout e), (is_socket_error e); discriminate].
  intros [= <-]. unfold loop_body in Hbody.
  destruct (recv t) as [data ip port fetch|e] eqn:Hrecv; [|discriminate].
  unfold process_datagram in Hbody.
  destruct (parse_headers (decode_utf8_ignore data) !! LOCATION) as [loc|] eqn:Hloc;
    [|now injection Hbody as <-].
  destruct (fetch_device_description fetch) as [d|e] eqn:Hfetch; [|discriminate].
  simpl in Hbody. injection Hbody as <-.
  apply Forall_app. split; [exact Hok|]. constructor; [|constructor].
  split; simpl; [exact Hloc|].
  destruct (fetch_device_description_inv _ _ Hfetch)
    as [->|(status_code & text & -> & ->)]; [now left|].
  right. exists t, data, ip, port, status_code, text. auto.
Qed.

Lemma receive_loop_record_ok max_wait script turns responses calls out calls' :
  (forall t, In t turns -> In t script) ->
  Forall (record_ok script) responses ->
  receive_loop max_wait turns responses calls = Some (LoopDone out, calls') ->
  Forall (record_ok script) out.
Proof.
  revert responses calls.
  induction turns as [|t turns IH]; intros responses calls Hsub Hok; simpl;
    [discriminate|].
  destruct (before_deadline max_wait t); [|now intros [= <- _]].
  destruct (loop_turn (recv t) responses) as [rs| |e] eqn:Hturn.
  - apply IH.
    + intros t' Hin. apply Hsub. now right.
    + apply (loop_turn_record_ok script t responses); auto. apply Hsub. now left.
  - now intros [= <- _].
  - discriminate.
Qed.

(** C10.  Every record of the list that [receive_ssdp_responses] returns
    has LOCATION among its headers, has the value of that header as its
    [location], and has a descriptor: the string [Unavailable] or the body
    of a response fetched during the session. *)
Theorem returned_records_invariant max_wait (script : list tick) sock verbose
    (result : receive_result) (out : list response_data) (r : response_data) :
  receive_ssdp_responses script sock max_wait verbose = Some result ->
  recv_exit result = Returned out ->
  In r out ->
  headers r !! str "LOCATION" = Some (location r)
  /\ (device_description r = str "Unavailable"
      \/ exists t data ip port status_code text,
           In t script
           /\ recv t = Received data ip port (FetchResponse status_code text)
           /\ device_description r = text).
Proof.
  unfold receive_ssdp_responses. intros Hcall Hexit Hin.
  destruct (receive_loop max_wait script [] 0) as [[[rs|e] calls]|] eqn:Hloop;
    [| |discriminate]; injection Hcall as <-; simpl in Hexit.
  - injection Hexit as <-.
    pose proof (receive_loop_record_ok max_wait script script [] 0 rs calls
                  (fun _ H => H) (List.Forall_nil _) Hloop) as Hok.
    rewrite Forall_forall in Hok. apply (Hok r). now apply list_elem_of_In.
  - destruct (is_exception e); [|discriminate].
    injection Hexit as <-. contradiction.
Qed.

(** ** Further properties of the sender *)

Lemma send_loop_all_sent env request payload (indices : list nat) trace :
  encode_utf8 request = Ok payload ->
  (forall i, In i indices -> sendto_raises env i = None /\ sleep_raises env i = None) ->
  send_loop env request indices trace
  = (Ok tt, trace ++ sent_events payload (length indices)).
Proof.
  intros Henc. revert trace.
  induction indices as [|i rest IH]; intros trace Hok; simpl.
  - unfold sent_events. simpl. now rewrite app_nil_r.
  - destruct (Hok i (or_introl eq_refl)) as [Hsend Hsleep].
    rewrite Henc, Hsend, Hsleep.
    rewrite IH by (intros j Hj; apply Hok; now right).
    unfold sent_events. simpl. now rewrite <- app_assoc.
Qed.

Lemma send_loop_first_error env request payload (before after : list nat)
    (i : nat) (e : exn) trace :
  encode_utf8 request = Ok payload ->
  (forall j, In j before -> sendto_raises env j = None /\ sleep_raises env j = None) ->
  sendto_raises env i = Some e ->
  send_loop env request (before ++ i :: after) trace
  = (Raise e, trace ++ sent_events payload (length before)).
Proof.
  intros Henc. revert trace.
  induction before as [|j rest IH]; intros trace Hok He; simpl.
  - rewrite Henc, He. unfold sent_events. simpl. now rewrite app_nil_r.
  - destruct (Hok j (or_introl eq_refl)) as [Hsend Hsleep].
    rewrite Henc, Hsend, Hsleep.
    rewrite IH by (auto; intros k Hk; apply Hok; now right).
    unfold sent_events. simpl. now rewrite <- app_assoc.
Qed.

Lemma send_loop_ok_inv env request (indices : list nat) trace :
  fst (send_loop env request indices trace) = Ok tt ->
  indices = []
  \/ (exists payload, encode_utf8 request = Ok payload)
     /\ forall i, In i indices ->
                  sendto_raises env i = None /\ sleep_raises env i = None.
Proof.
  revert trace. induction indices as [|i rest IH]; intros trace; simpl;
    [now left|].
  destruct (encode_utf8 request) as [payload|e] eqn:Henc; [|discriminate].
  destruct (sendto_raises env i) as [e|] eqn:Hi; [discriminate|].
  destruct (sleep_raises env i) as [e|] eqn:Hsl; [discriminate|].
  intros H. right. split; [eauto|].
  intros j [<-|Hj]; [now split|].
  destruct (IH _ H) as [->|[_ Hrest]]; [contradiction | now apply Hrest].
Qed.

Lemma datagrams_sent_events payload (k : nat) :
  datagrams (sent_events payload k) = replicate k (payload, SSDP_ADDR, SSDP_PORT).
Proof.
  unfold sent_events, datagrams. induction k as [|k IH]; [reflexivity|].
  simpl. now rewrite IH.
Qed.

Lemma range_split (n : Z) (i : nat) :
  (i < Z.to_nat n)%nat ->
  range n = seq 0 i ++ i :: seq (S i) (Z.to_nat n - S i).
Proof.
  intros Hi. unfold range.
  replace (Z.to_nat n) with (i + S (Z.to_nat n - S i))%nat at 1 by lia.
  now rewrite seq_app.
Qed.

Lemma in_range (n : Z) (i : nat) : In i (range n) <-> (i < Z.to_nat n)%nat.
Proof. unfold range. rewrite in_seq. lia. Qed.

Lemma range_nil (n : Z) : range n = [] <-> (n <= 0)%Z.
Proof.
  unfold range. destruct (Z.to_nat n) eqn:Hn; simpl; split;
    try discriminate; try reflexivity; lia.
Qed.

(** What a returned socket tells about the call. *)
Lemma send_returns_socket_inv env st (retries : Z) timeout sock :
  fst (send_ssdp_discovery env st retries timeout) = Returned (Some sock) ->
  socket_raises env = None
  /\ Qle_bool 0 timeout = true
  /\ (exists kept,
         settimeout_result env timeout = Ok kept
         /\ sock = {| sock_timeout := kept; sock_closed := false |})
  /\ ((retries <= 0)%Z
      \/ existsb is_surrogate st = false
         /\ forall i, (i < Z.to_nat retries)%nat ->
                      sendto_raises env i = None /\ sleep_raises env i = None).
Proof.
  unfold send_ssdp_discovery, send_body, settimeout.
  destruct (socket_raises env) as [e|] eqn:Hs.
  { simpl. destruct (is_socket_error e), (is_exception e); discriminate. }
  destruct (Qle_bool 0 timeout) eqn:Ht.
  2:{ simpl. discriminate. }
  destruct (settimeout_result env timeout) as [kept|e] eqn:Hkept.
  2:{ simpl. destruct (is_socket_error e), (is_exception e); discriminate. }
  simpl.
  destruct (send_loop env (ssdp_request st) (range retries) []) as [r trace] eqn:Hl.
  assert (Hr : r = fst (send_loop env (ssdp_request st) (range retries) []))
    by now rewrite Hl.
  simpl. destruct r as [[]|e]; simpl;
    [|destruct (is_socket_error e), (is_exception e); discriminate].
  intros [= <-]. repeat split; [eauto|].
  destruct (send_loop_ok_inv _ _ _ _ (eq_sym Hr)) as [Hnil|[[payload Henc] Hall]].
  - left. now apply range_nil.
  - right. split.
    + apply encode_utf8_inv in Henc as [Henc _].
      now rewrite surrogate_free_request in Henc.
    + intros i Hi. apply Hall. now apply in_range.
Qed.

(** X1.  [send_ssdp_discovery] returns a socket exactly when no call on
    the way raises: the socket can be created, the timeout is not negative
    and [settimeout] takes it, and, unless [retries] is zero or negative,
    the search target can be encoded and none of the [retries] calls of
    [sendto] and of [time.sleep] raises.  The socket returned is open and
    has the timeout that [settimeout] made of the one asked for. *)
Theorem send_returns_socket_iff env st (retries : Z) timeout sock :
  fst (send_ssdp_discovery env st retries timeout) = Returned (Some sock)
  <-> socket_raises env = None
      /\ Qle_bool 0 timeout = true
      /\ (exists kept,
             settimeout_result env timeout = Ok kept
             /\ sock = {| sock_timeout := kept; sock_closed := false |})
      /\ ((retries <= 0)%Z
          \/ existsb is_surrogate st = false
             /\ forall i, (i < Z.to_nat retries)%nat ->
                          sendto_raises env i = None /\ sleep_raises env i = None).
Proof.
  split; [apply send_returns_socket_inv|].
  intros (Hs & Ht & (kept & Hkept & ->) & Hsend).
  unfold send_ssdp_discovery, send_body, settimeout. rewrite Hs, Ht, Hkept.
  simpl. destruct Hsend as [Hneg|[Hst Hall]].
  - apply range_nil in Hneg. now rewrite Hneg.
  - erewrite send_loop_all_sent; [reflexivity | |].
    + apply encode_utf8_ok. now rewrite surrogate_free_request.
    + intros i Hi. apply Hall. now apply in_range.
Qed.

(** The sender up to the first [sendto] that raises. *)
Lemma send_body_first_error env st (retries : Z) timeout kept (i : nat) (e : exn) :
  socket_raises env = None ->
  Qle_bool 0 timeout = true ->
  settimeout_result env timeout = Ok kept ->
  existsb is_surrogate st = false ->
  (i < Z.to_nat retries)%nat ->
  (forall j, (j < i)%nat -> sendto_raises env j = None /\ sleep_raises env j = None) ->
  sendto_raises env i = Some e ->
  send_body env st retries timeout
  = (Raise e,
     sent_events (wire_payload (str "2") (flat_map utf8_of_code_point st)) i).
Proof.
  intros Hs Ht Hkept Hst Hi Hbefore He.
  unfold send_body, settimeout. rewrite Hs, Ht, Hkept. simpl.
  rewrite (range_split retries i Hi).
  erewrite send_loop_first_error; [| | |exact He].
  - rewrite length_seq. reflexivity.
  - rewrite encode_utf8_ok by now rewrite surrogate_free_request.
    now rewrite ssdp_request_wire, utf8_wire_payload.
  - intros j Hj. apply Hbefore. apply in_seq in Hj. lia.
Qed.

(** X2.  The first [sendto] that raises ends the sending: when the socket
    was set up (created, timeout taken by [settimeout]) and the call number
    [i] (from 0) is the first call of the loop to raise, exactly [i]
    datagrams have left, no further attempt is made, and the call returns
    [None] for an [Exception] and passes on anything else. *)
Theorem send_aborts_at_first_error env st (retries : Z) timeout kept
    (i : nat) (e : exn) :
  socket_raises env = None ->
  Qle_bool 0 timeout = true ->
  settimeout_result env timeout = Ok kept ->
  existsb is_surrogate st = false ->
  (i < Z.to_nat retries)%nat ->
  (forall j, (j < i)%nat -> sendto_raises env j = None /\ sleep_raises env j = None) ->
  sendto_raises env i = Some e ->
  fst (send_ssdp_discovery env st retries timeout)
  = (if is_exception e then Returned None else Propagated e)
  /\ datagrams (snd (send_ssdp_discovery env st retries timeout))
     = replicate i (wire_payload (str "2") (flat_map utf8_of_code_point st),
                    SSDP_ADDR, SSDP_PORT).
Proof.
  intros Hs Ht Hkept Hst Hi Hbefore He.
  unfold send_ssdp_discovery.
  rewrite (send_body_first_error env st retries timeout kept i e) by assumption.
  simpl. split; [now destruct e | apply datagrams_sent_events].
Qed.


(** X4.  Nothing is sent when the socket cannot be created, when the
    timeout is negative or when the search target holds a lone surrogate;
    and then, for positive [retries], no socket is returned. *)
Theorem send_nothing_on_setup_failure env st (retries : Z) timeout :
  (exists e, socket_raises env = Some e)
  \/ Qle_bool 0 timeout = false
  \/ existsb is_surrogate st = true ->
  snd (send_ssdp_discovery env st retries timeout) = []
  /\ ((0 < retries)%Z ->
      forall sock,
        fst (send_ssdp_discovery env st retries timeout) <> Returned (Some sock)).
Proof.
  intros Hfail. split.
  - rewrite send_trace. unfold send_body, settimeout.
    destruct (socket_raises env) as [e|]; [reflexivity|].
    destruct (Qle_bool 0 timeout); [|reflexivity].
    destruct (settimeout_result env timeout) as [kept|e]; [|reflexivity].
    simpl.
    destruct Hfail as [[e He]|[Ht|Hst]]; try discriminate.
    pose proof (send_loop_unencodable env (ssdp_request st) (range retries) []
                  OtherException) as Hu.
    unfold encode_utf8 in Hu. rewrite surrogate_free_request, Hst in Hu.
    specialize (Hu eq_refl).
    now destruct (send_loop env (ssdp_request st) (range retries) []).
  - intros Hpos sock Hret.
    apply send_returns_socket_inv in Hret as (Hs & Ht & _ & Hsend).
    destruct Hfail as [[e He]|[Ht'|Hst]]; [congruence.. |].
    destruct Hsend as [Hneg|[Hst' _]]; [lia | congruence].
Qed.

(** X5.  Every datagram is followed by the 100 ms pause, the last one
    included: the events of a call are [k] pairs of a [sendto] of the
    request and a sleep, for some [k] up to [retries], and nothing else. *)
Theorem send_trace_shape env st (retries : Z) timeout :
  exists k : nat,
    (k <= Z.to_nat retries)%nat
    /\ snd (send_ssdp_discovery env st retries timeout)
       = sent_events (wire_payload (str "2") (flat_map utf8_of_code_point st)) k.
Proof.
  rewrite send_trace. unfold send_body, settimeout.
  destruct (socket_raises env) as [e|]; [exists 0%nat; split; [lia|reflexivity]|].
  destruct (Qle_bool 0 timeout); [|exists 0%nat; split; [lia|reflexivity]].
  destruct (settimeout_result env timeout) as [kept|e];
    [|exists 0%nat; split; [lia|reflexivity]].
  simpl.
  destruct (encode_utf8 (ssdp_request st)) as [payload|e] eqn:Henc.
  - pose proof (encode_ssdp_request _ _ Henc) as Hp. subst payload.
    assert (Hgen : forall indices tr,
               exists k, (k <= length indices)%nat
                 /\ snd (send_loop env (ssdp_request st) indices tr)
                    = tr ++ sent_events
                              (wire_payload (str "2")
                                 (flat_map utf8_of_code_point st)) k).
    { induction indices as [|i rest IH]; intros tr; simpl.
      - exists 0%nat. split; [lia|]. unfold sent_events. simpl.
        now rewrite app_nil_r.
      - rewrite Henc. destruct (sendto_raises env i).
        + exists 0%nat. split; [lia|]. unfold sent_events. simpl.
          now rewrite app_nil_r.
        + destruct (sleep_raises env i).
          * exists 1%nat. split; [lia|]. reflexivity.
          * destruct (IH (tr ++ [Sendto (wire_payload (str "2")
                                            (flat_map utf8_of_code_point st))
                                    SSDP_ADDR SSDP_PORT; Sleep 100]))
              as (k & Hk & Heq).
            exists (S k). split; [lia|]. rewrite Heq.
            unfold sent_events. simpl. now rewrite <- app_assoc. }
    destruct (Hgen (range retries) []) as (k & Hk & Heq).
    rewrite length_range in Hk. exists k. split; [exact Hk|].
    now destruct (send_loop env (ssdp_request st) (range retries) []).
  - pose proof (send_loop_unencodable env _ (range retries) [] e Henc) as Hu.
    exists 0%nat. split; [lia|].
    now destruct (send_loop env (ssdp_request st) (range retries) []).
Qed.

(** ** Further properties of the string layer *)

Lemma utf8_of_code_point_bytes (c : N) :
  c <= 1114111 -> Forall (fun b => b < 256) (utf8_of_code_point c).
Proof.
  intros Hc. unfold utf8_of_code_point.
  destruct (N.ltb_spec c 128); [repeat constructor; lia|].
  destruct (N.ltb_spec c 2048).
  { assert (c / 64 < 32) by (apply N.Div0.div_lt_upper_bound; lia).
    assert (c mod 64 < 64) by (apply N.mod_lt; lia).
    repeat constructor; lia. }
  assert (c mod 64 < 64) by (apply N.mod_lt; lia).
  assert ((c / 64) mod 64 < 64) by (apply N.mod_lt; lia).
  destruct (N.ltb_spec c 65536).
  { assert (c / 4096 < 16) by (apply N.Div0.div_lt_upper_bound; lia).
    repeat constructor; lia. }
  assert (c / 262144 < 5) by (apply N.Div0.div_lt_upper_bound; lia).
  assert ((c / 4096) mod 64 < 64) by (apply N.mod_lt; lia).
  repeat constructor; lia.
Qed.

(** X6.  The encoding of a string of Unicode code points (at most
    U+10FFFF) is a string of bytes: every element is below 256; and it has
    at least as many bytes as the string has code points, at most four
    times as many. *)
Theorem encode_utf8_bytes (s : pystr) (payload : pybytes) :
  encode_utf8 s = Ok payload ->
  Forall (fun c => c <= 1114111) s ->
  Forall (fun b => b < 256) payload
  /\ (length s <= length payload <= 4 * length s)%nat.
Proof.
  intros Henc Hs. apply encode_utf8_inv in Henc as [_ ->]. split.
  - induction Hs as [|c s Hc _ IH]; simpl; [constructor|].
    apply Forall_app. split; [now apply utf8_of_code_point_bytes | exact IH].
  - clear Hs. induction s as [|c s IH]; simpl; [lia|].
    rewrite length_app.
    assert (1 <= length (utf8_of_code_point c) <= 4)%nat; [|lia].
    unfold utf8_of_code_point.
    destruct (c <? 128), (c <? 2048), (c <? 65536); simpl; lia.
Qed.

(** X7.  ASCII text is its own encoding, and encoding it never raises. *)
Theorem encode_utf8_ascii (s : pystr) :
  Forall (fun c => c < 128) s -> encode_utf8 s = Ok s.
Proof.
  intros Hs. unfold encode_utf8.
  assert (Hsur : existsb is_surrogate s = false).
  { induction Hs as [|c s Hc _ IH]; simpl; [reflexivity|]. rewrite IH.
    unfold is_surrogate.
    replace (55296 <=? c) with false by (symmetry; apply N.leb_gt; lia).
    reflexivity. }
  rewrite Hsur. f_equal.
  induction Hs as [|c s Hc _ IH]; simpl; [reflexivity|].
  simpl in Hsur. apply orb_false_elim in Hsur as [_ Hsur].
  rewrite (IH Hsur). unfold utf8_of_code_point.
  now replace (c <? 128) with true by (symmetry; apply N.ltb_lt; lia).
Qed.

(** X8.  Splitting at the first [c] loses nothing: for a string that
    contains [c], the two parts joined by [c] give the string back, and the
    first part is free of [c]. *)
Theorem split1_join (c : N) (s : pystr) :
  in_str c s = true ->
  s = fst (split1 c s) ++ c :: snd (split1 c s)
  /\ Forall (fun x => x <> c) (fst (split1 c s)).
Proof.
  intros Hin. split; [|apply split1_before].
  induction s as [|x s IH]; simpl in *; [discriminate|].
  rewrite N.eqb_sym in Hin.
  destruct (N.eqb_spec x c) as [->|Hne]; [reflexivity|].
  simpl in Hin. specialize (IH Hin).
  destruct (split1 c s) as [before after]. simpl in *. now f_equal.
Qed.

Lemma lstrip_decomp (s : pystr) :
  exists l, s = l ++ lstrip s /\ Forall (fun x => is_space x = true) l.
Proof.
  induction s as [|c s (l & Hl & Hsp)]; [exists []; auto|]. simpl.
  destruct (is_space c) eqn:Hc.
  - exists (c :: l). split; [simpl; now f_equal | now constructor].
  - exists []. auto.
Qed.

Lemma rstrip_decomp (s : pystr) :
  exists r, s = rstrip s ++ r /\ Forall (fun x => is_space x = true) r.
Proof.
  induction s as [|c s (r & Hr & Hsp)]; [exists []; auto|]. simpl.
  destruct (rstrip s) as [|k kept] eqn:Hk.
  - simpl in Hr. subst s. destruct (is_space c) eqn:Hc.
    + exists (c :: r). split; [reflexivity | now constructor].
    + exists r. auto.
  - exists r. split; [simpl; now f_equal | exact Hsp].
Qed.

Lemma rstrip_last_clean (s : pystr) (c : N) :
  last (rstrip s) = Some c -> is_space c = false.
Proof.
  destruct (rstrip_fixed_inv (rstrip s) (rstrip_rstrip s))
    as [->|(s' & c' & -> & Hc')]; [discriminate|].
  rewrite last_snoc. now intros [= <-].
Qed.

(** X9.  [strip] removes white space from the two ends and nothing else:
    the string is its stripped form between two runs of white space, and
    the stripped form neither starts nor ends with white space. *)
Theorem strip_spec (s : pystr) :
  (exists l r,
      s = l ++ strip s ++ r
      /\ Forall (fun x => is_space x = true) l
      /\ Forall (fun x => is_space x = true) r)
  /\ (forall c, head (strip s) = Some c -> is_space c = false)
  /\ (forall c, last (strip s) = Some c -> is_space c = false).
Proof.
  split; [|split].
  - destruct (lstrip_decomp s) as (l & Hl & Hlsp).
    destruct (rstrip_decomp (lstrip s)) as (r & Hr & Hrsp).
    exists l, r. unfold strip. now rewrite <- Hr.
  - intros c Hc. pose proof (strip_starts_clean s) as Hs.
    destruct (strip s); [discriminate|]. now injection Hc as <-.
  - intros c. apply rstrip_last_clean.
Qed.

(** An induction scheme that follows [splitlines_from], which steps over
    one code point or over two. *)
Lemma pystr_pair_ind (P : pystr -> Prop) :
  P [] ->
  (forall c rest,
      P rest -> (forall c' rest', rest = c' :: rest' -> P rest') -> P (c :: rest)) ->
  forall s, P s.
Proof.
  intros Hnil Hcons s.
  assert (H : P s /\ (forall c' rest', s = c' :: rest' -> P rest')); [|apply H].
  induction s as [|c s [IH1 IH2]].
  - split; [exact Hnil | discriminate].
  - split; [now apply Hcons | now intros c' rest' [= _ <-]].
Qed.

(** Every code point of a line comes from the text (or from the line
    under way). *)
Lemma splitlines_from_Forall (P : N -> Prop) (s : pystr) :
  forall cur,
    Forall P cur -> Forall P s ->
    Forall (Forall P) (splitlines_from cur s).
Proof.
  induction s as [|c rest IH1 IH2] using pystr_pair_ind; intros cur Hcur Hs; simpl.
  - destruct cur; [constructor | constructor; [assumption | constructor]].
  - inversion Hs as [|? ? Hc Hrest]; subst.
    destruct (is_linebreak c).
    + constructor; [exact Hcur|].
      destruct rest as [|c' rest']; [constructor|].
      destruct ((c =? CR) && (c' =? LF)).
      * apply (IH2 c' rest' eq_refl); [constructor|]. now inversion Hrest.
      * apply IH1; [constructor | exact Hrest].
    + apply IH1; [|exact Hrest]. apply Forall_app. split; [exact Hcur|].
      now repeat constructor.
Qed.

Lemma splitlines_from_no_linebreak (s : pystr) :
  forall cur,
    Forall (fun x => is_linebreak x = false) cur ->
    Forall (Forall (fun x => is_linebreak x = false)) (splitlines_from cur s).
Proof.
  induction s as [|c rest IH1 IH2] using pystr_pair_ind; intros cur Hcur; simpl.
  - destruct cur; [constructor | constructor; [assumption | constructor]].
  - destruct (is_linebreak c) eqn:Hc.
    + constructor; [exact Hcur|].
      destruct rest as [|c' rest']; [constructor|].
      destruct ((c =? CR) && (c' =? LF)).
      * apply (IH2 c' rest' eq_refl). constructor.
      * apply IH1. constructor.
    + apply IH1. apply Forall_app. split; [exact Hcur|].
      now repeat constructor.
Qed.

Lemma splitlines_from_line (line : pystr) :
  Forall (fun x => is_linebreak x = false) line ->
  forall cur b rest,
    is_linebreak b = true ->
    splitlines_from cur (line ++ b :: rest)
    = (cur ++ line)
        :: match rest with
           | c' :: rest' =>
               if (b =? CR) && (c' =? LF) then splitlines_from [] rest'
               else splitlines_from [] rest
           | [] => []
           end.
Proof.
  induction 1 as [|c line Hc _ IH]; intros cur b rest Hb; simpl.
  - rewrite Hb. now rewrite app_nil_r.
  - rewrite Hc, IH by exact Hb. now rewrite <- app_assoc.
Qed.

(** X10.  The lines that [splitlines] gives hold no line boundary, and a
    non-empty text without line boundary is its own single line. *)
Theorem splitlines_lines_clean (s : pystr) :
  Forall (Forall (fun x => is_linebreak x = false)) (splitlines s)
  /\ (Forall (fun x => is_linebreak x = false) s -> s <> [] -> splitlines s = [s]).
Proof.
  split; [apply splitlines_from_no_linebreak; constructor|].
  unfold splitlines. intros Hs Hne.
  assert (Hgen : forall cur, splitlines_from cur s
                             = match cur ++ s with [] => [] | l => [l] end).
  { clear Hne. induction Hs as [|c s Hc _ IH]; intros cur; simpl.
    - rewrite app_nil_r. now destruct cur.
    - rewrite Hc, IH, <- app_assoc. reflexivity. }
  rewrite Hgen. simpl. now destruct s.
Qed.

(** X11.  A line boundary ends a line and CR LF is one boundary, not two:
    a text that starts with a line followed by CR LF splits into that line
    and the lines of what follows; so does one where the line is followed
    by any single boundary that is not the CR of a CR LF pair. *)
Theorem splitlines_first_line (line rest : pystr) (b : N) :
  Forall (fun x => is_linebreak x = false) line ->
  splitlines (line ++ CR :: LF :: rest) = line :: splitlines rest
  /\ (is_linebreak b = true ->
      (b = CR -> head rest <> Some LF) ->
      splitlines (line ++ b :: rest) = line :: splitlines rest).
Proof.
  intros Hline. unfold splitlines. split.
  - rewrite (splitlines_from_line line Hline [] CR (LF :: rest) eq_refl).
    reflexivity.
  - intros Hb Hpair. rewrite (splitlines_from_line line Hline [] b rest Hb).
    simpl. f_equal. destruct rest as [|c' rest']; [reflexivity|].
    destruct (N.eqb_spec b CR) as [->|_]; [|reflexivity].
    destruct (N.eqb_spec c' LF) as [->|_]; [|reflexivity].
    now destruct (Hpair eq_refl).
Qed.

(** ** Further properties of header parsing *)

Lemma split1_after_Forall (P : N -> Prop) (c : N) (s : pystr) :
  Forall P s -> Forall P (snd (split1 c s)).
Proof.
  induction 1 as [|x s Hx Hs IH]; simpl; [constructor|].
  destruct (x =? c); [exact Hs|].
  now destruct (split1 c s).
Qed.

(** What a line with a colon parses to. *)
Lemma parse_line_inv (line key value : pystr) :
  parse_line line = Some (key, value) ->
  in_str COLON line = true
  /\ key = upper (strip (fst (split1 COLON line)))
  /\ value = strip (snd (split1 COLON line)).
Proof.
  unfold parse_line. destruct (in_str COLON line); [|discriminate].
  destruct (split1 COLON line) as [k0 v0]. now intros [= <- <-].
Qed.

Lemma add_lines_lookup_inv (lines : list pystr) (m : gmap pystr pystr)
    (key value : pystr) :
  fold_left add_line lines m !! key = Some value ->
  m !! key = Some value
  \/ exists line, In line lines /\ parse_line line = Some (key, value).
Proof.
  revert m. induction lines as [|l lines IH]; intros m; simpl; [now left|].
  intros H. destruct (IH _ H) as [Hm|(line & Hin & Hp)].
  - unfold add_line in Hm.
    destruct (parse_line l) as [[k v]|] eqn:Hl; [|now left].
    destruct (decide (k = key)) as [->|Hne].
    + rewrite lookup_insert_eq in Hm. injection Hm as ->. right. eauto.
    + rewrite lookup_insert_ne in Hm by exact Hne. now left.
  - right. eauto.
Qed.

Lemma add_lines_lookup_is_Some (lines : list pystr) (m : gmap pystr pystr)
    (line key value : pystr) :
  In line lines -> parse_line line = Some (key, value) ->
  is_Some (fold_left add_line lines m !! key).
Proof.
  induction lines as [|x lines IH] using rev_ind; [contradiction|].
  intros Hin Hp. rewrite fold_left_app. simpl. unfold add_line at 1.
  destruct (parse_line x) as [[k v]|] eqn:Hx.
  - destruct (decide (k = key)) as [->|Hne].
    + rewrite lookup_insert_eq. eauto.
    + rewrite lookup_insert_ne by exact Hne.
      apply in_app_or in Hin as [Hin|[->|[]]]; [now apply IH | congruence].
  - apply in_app_or in Hin as [Hin|[->|[]]]; [now apply IH | congruence].
Qed.

(** An entry of the parsed headers and the line it was read from. *)
Lemma parse_headers_entry_inv (text key value : pystr) :
  parse_headers text !! key = Some value ->
  exists line,
    In line (splitlines text)
    /\ in_str COLON line = true
    /\ key = upper (strip (fst (split1 COLON line)))
    /\ value = strip (snd (split1 COLON line)).
Proof.
  unfold parse_headers. intros H.
  apply add_lines_lookup_inv in H as [H|(line & Hin & Hp)].
  - rewrite lookup_empty in H. discriminate.
  - exists line. split; [exact Hin | now apply parse_line_inv].
Qed.

(** X12.  Every entry of the parsed headers comes from a line of the
    text: a line with a colon whose trimmed, upper-cased part before the
    first colon is the key and whose trimmed part after it is the value. *)
Theorem parsed_entry_from_line (text key value : pystr) :
  parse_headers text !! key = Some value ->
  exists line,
    In line (splitlines text)
    /\ in_str COLON line = true
    /\ key = upper (strip (fst (split1 COLON line)))
    /\ value = strip (snd (split1 COLON line)).
Proof. apply parse_headers_entry_inv. Qed.

(** X13.  A name is missing from the parsed headers exactly when no line
    of the text has it as its key: a header that occurs in some line is
    never dropped. *)
Theorem header_missing_iff (text key : pystr) :
  parse_headers text !! key = None
  <-> forall line value,
        In line (splitlines text) -> parse_line line <> Some (key, value).
Proof.
  unfold parse_headers. split.
  - intros Hnone line value Hin Hp.
    destruct (add_lines_lookup_is_Some _ ∅ _ _ _ Hin Hp) as [v Hv]. congruence.
  - intros Hno. rewrite add_lines_other by exact Hno. apply lookup_empty.
Qed.

(** X14.  Header values are trimmed and single-line: no value in the
    parsed headers starts or ends with white space or holds a line
    boundary. *)
Theorem parsed_values_trimmed (text key value : pystr) :
  parse_headers text !! key = Some value ->
  strip value = value
  /\ Forall (fun x => is_linebreak x = false) value.
Proof.
  intros H. apply parse_headers_entry_inv in H as (line & Hin & _ & _ & ->).
  split; [apply strip_strip|].
  apply Forall_strip, split1_after_Forall.
  pose proof (splitlines_from_no_linebreak text [] (List.Forall_nil _)) as Hl.
  rewrite Forall_forall in Hl. apply Hl. now apply list_elem_of_In.
Qed.

Lemma strip_upper_strip (s : pystr) :
  upper_table_ok -> strip (upper (strip s)) = upper (strip s).
Proof.
  intros Htable. unfold strip at 1.
  rewrite lstrip_clean by (apply upper_starts_clean, strip_starts_clean; exact Htable).
  apply upper_rstrip_fixed; [exact Htable | apply rstrip_strip].
Qed.

(** X15.  Header names are normalised: every key of the parsed headers
    is upper case (upper-casing it changes nothing), has no white space at
    its ends and holds no colon.  The case mapping of non-ASCII code points
    enters through [upper_table_ok]. *)
Theorem parsed_keys_normalised (text key value : pystr) :
  upper_table_ok ->
  parse_headers text !! key = Some value ->
  upper key = key
  /\ strip key = key
  /\ in_str COLON key = false.
Proof.
  intros Htable H.
  apply parse_headers_entry_inv in H as (line & _ & _ & -> & _).
  split; [now apply upper_upper|]. split; [now apply strip_upper_strip|].
  apply in_str_false, upper_no_colon; [exact Htable|].
  apply Forall_strip, split1_before.
Qed.

(** X16.  A text without any colon, the empty datagram included, has no
    headers at all. *)
Theorem parse_headers_no_colon (text : pystr) :
  in_str COLON text = false -> parse_headers text = ∅.
Proof.
  intros Hno. apply in_str_false in Hno.
  pose proof (splitlines_from_Forall _ text [] (List.Forall_nil _) Hno) as Hlines.
  unfold parse_headers. fold (splitlines text) in Hlines.
  generalize (∅ : gmap pystr pystr).
  induction Hlines as [|line lines Hline _ IH]; intros m; [reflexivity|].
  simpl. unfold add_line at 2, parse_line.
  apply in_str_false in Hline. rewrite Hline. apply IH.
Qed.

Lemma parse_line_app_colon (name text : pystr) :
  in_str COLON name = false ->
  parse_line (name ++ COLON :: text) = Some (upper (strip name), strip text).
Proof.
  intros Hname. apply in_str_false in Hname.
  unfold parse_line. now rewrite in_str_app_colon, split1_app.
Qed.

(** X17.  Only the first colon of a line separates: a line made of a
    colon-free name, a colon and any text (which may hold colons, as a URL
    does) parses to the normalised name and the whole trimmed text. *)
Theorem parse_line_first_colon (name text : pystr) :
  in_str COLON name = false ->
  parse_line (name ++ COLON :: text) = Some (upper (strip name), strip text).
Proof. apply parse_line_app_colon. Qed.

(** *** Case-insensitivity for ASCII names *)

Lemma upper_code_point_ascii (c : N) :
  c < 128 ->
  exists c', upper_code_point c = [c'] /\ is_space c' = is_space c.
Proof.
  intros Hc. destruct (upper_ascii c Hc) as [->|[Hr ->]]; [eauto|].
  exists (c - 32). split; [reflexivity|].
  rewrite !is_space_printable by lia. reflexivity.
Qed.

Lemma lstrip_upper_ascii (s : pystr) :
  Forall (fun c => c < 128) s -> lstrip (upper s) = upper (lstrip s).
Proof.
  induction 1 as [|c s Hc _ IH]; [reflexivity|].
  change (upper (c :: s)) with (upper_code_point c ++ upper s).
  destruct (upper_code_point_ascii c Hc) as (c' & Hup & Hsp).
  rewrite Hup. simpl. rewrite Hsp. destruct (is_space c); [exact IH|].
  change (upper (c :: s)) with (upper_code_point c ++ upper s).
  now rewrite Hup.
Qed.

Lemma upper_cons (c : N) (s : pystr) :
  upper (c :: s) = upper_code_point c ++ upper s.
Proof. reflexivity. Qed.

Lemma rstrip_upper_ascii (s : pystr) :
  Forall (fun c => c < 128) s -> rstrip (upper s) = upper (rstrip s).
Proof.
  induction 1 as [|c s Hc Hs IH]; [reflexivity|].
  assert (Hr : Forall (fun c => c < 128) (rstrip s)) by now apply Forall_rstrip.
  destruct (upper_code_point_ascii c Hc) as (c' & Hup & Hsp).
  rewrite upper_cons, Hup. simpl. rewrite IH, Hsp.
  destruct (rstrip s) as [|k kept].
  - simpl. destruct (is_space c); [reflexivity|].
    now rewrite upper_cons, Hup.
  - inversion Hr as [|? ? Hk _]; subst.
    destruct (upper_code_point_ascii k Hk) as (k' & Hupk & _).
    rewrite (upper_cons c), Hup, (upper_cons k), Hupk. reflexivity.
Qed.

Lemma strip_upper_ascii (s : pystr) :
  Forall (fun c => c < 128) s -> strip (upper s) = upper (strip s).
Proof.
  intros Hs. unfold strip.
  rewrite lstrip_upper_ascii by exact Hs.
  apply rstrip_upper_ascii. now apply Forall_lstrip.
Qed.

(** X18.  Header names are matched without regard to the case of ASCII
    letters: two ASCII names with the same upper-case form, each followed
    by a colon and the same text, parse to the same entry. *)
Theorem parse_line_ascii_case_insensitive (name1 name2 text : pystr) :
  Forall (fun c => c < 128) name1 ->
  Forall (fun c => c < 128) name2 ->
  in_str COLON name1 = false ->
  in_str COLON name2 = false ->
  upper name1 = upper name2 ->
  parse_line (name1 ++ COLON :: text) = parse_line (name2 ++ COLON :: text).
Proof.
  intros H1 H2 Hc1 Hc2 Hup.
  rewrite !parse_line_app_colon by assumption.
  rewrite <- !strip_upper_ascii by assumption. now rewrite Hup.
Qed.

(** ** Further properties of the collector *)

Lemma receive_loop_total max_wait (script : list tick)
    (responses : list response_data) (calls : nat) :
  (exists t, In t script /\ before_deadline max_wait t = false) ->
  exists exit calls', receive_loop max_wait script responses calls = Some (exit, calls').
Proof.
  revert responses calls.
  induction script as [|t script IH]; intros responses calls (t0 & Hin & Ht0);
    [contradiction|].
  simpl. destruct (before_deadline max_wait t) eqn:Hwin; [|eauto].
  destruct (loop_turn (recv t) responses); eauto.
  apply IH. destruct Hin as [<-|Hin]; [congruence | eauto].
Qed.

Lemma receive_loop_calls max_wait (script : list tick)
    (responses : list response_data) (calls : nat) exit calls' :
  receive_loop max_wait script responses calls = Some (exit, calls') ->
  (calls <= calls' <= calls + length script)%nat.
Proof.
  revert responses calls.
  induction script as [|t script IH]; intros responses calls; simpl;
    [discriminate|].
  destruct (before_deadline max_wait t); [|intros [= _ <-]; lia].
  destruct (loop_turn (recv t) responses).
  - intros H. apply IH in H. lia.
  - intros [= _ <-]. lia.
  - intros [= _ <-]. lia.
Qed.

(** X19.  The call ends as soon as the clock has reached the deadline: in
    every session in which some reading of the clock is at or past
    [max_wait], [receive_ssdp_responses] comes back, with the socket
    closed, after at most as many [recvfrom] calls as there were turns. *)
Theorem receive_ends_by_deadline max_wait (script : list tick) sock verbose :
  (exists t, In t script /\ before_deadline max_wait t = false) ->
  exists result,
    receive_ssdp_responses script sock max_wait verbose = Some result
    /\ sock_closed (recv_sock result) = true
    /\ (recv_calls result <= length script)%nat.
Proof.
  intros Hend. unfold receive_ssdp_responses.
  destruct (receive_loop_total max_wait script [] 0 Hend) as (exit & calls & Hloop).
  rewrite Hloop. apply receive_loop_calls in Hloop.
  destruct exit; eexists; (split; [reflexivity|]); simpl; split; auto; lia.
Qed.

(** X21.  When the loop test finds the deadline reached, the call returns
    the records collected so far without calling [recvfrom] again; in
    particular a session whose first clock reading is past the deadline
    returns the empty list without receiving at all. *)
Theorem deadline_ends_loop max_wait (turns rest : list tick)
    (collected : list response_data) (t : tick) sock verbose :
  run_turns max_wait turns [] = Some collected ->
  before_deadline max_wait t = false ->
  receive_ssdp_responses (turns ++ t :: rest) sock max_wait verbose
  = Some {| recv_exit := Returned collected; recv_sock := close sock;
            recv_calls := length turns |}.
Proof.
  intros Hturns Hwin. unfold receive_ssdp_responses.
  rewrite (receive_loop_app _ _ _ _ _ _ Hturns). simpl. rewrite Hwin.
  now replace (length turns + 0)%nat with (length turns) by lia.
Qed.

Lemma loop_turn_continue_record (t : tick) (responses responses' : list response_data) :
  loop_turn (recv t) responses = Continue responses' ->
  responses' = responses ++ option_list (record_of_turn t).
Proof.
  unfold loop_turn, loop_body, record_of_turn, process_datagram.
  destruct (recv t) as [data ip port fetch|e].
  - destruct (parse_headers (decode_utf8_ignore data) !! LOCATION) as [loc|].
    + destruct (fetch_device_description fetch) as [d|e]; simpl.
      * now intros [= <-].
      * destruct (is_socket_timeout e), (is_socket_error e); discriminate.
    + intros [= <-]. simpl. now rewrite app_nil_r.
  - destruct (is_socket_timeout e), (is_socket_error e); discriminate.
Qed.

Lemma loop_turn_break_record (t : tick) (responses : list response_data) :
  loop_turn (recv t) responses = Break -> record_of_turn t = None.
Proof.
  unfold loop_turn, loop_body, record_of_turn, process_datagram.
  destruct (recv t) as [data ip port fetch|e]; [|reflexivity].
  destruct (parse_headers (decode_utf8_ignore data) !! LOCATION) as [loc|];
    [|discriminate].
  destruct (fetch_device_description fetch) as [d|e]; [discriminate | reflexivity].
Qed.

Lemma omap_cons_option_list (t : tick) (turns : list tick) :
  omap record_of_turn (t :: turns)
  = option_list (record_of_turn t) ++ omap record_of_turn turns.
Proof. simpl. now destruct (record_of_turn t). Qed.

Lemma receive_loop_done_records max_wait (script : list tick)
    (responses : list response_data) (calls : nat) out calls' :
  receive_loop max_wait script responses calls = Some (LoopDone out, calls') ->
  exists n : nat,
    calls' = (calls + n)%nat
    /\ out = responses ++ omap record_of_turn (take n script).
Proof.
  revert responses calls.
  induction script as [|t script IH]; intros responses calls; simpl;
    [discriminate|].
  destruct (before_deadline max_wait t).
  - destruct (loop_turn (recv t) responses) as [rs| |e] eqn:Hturn.
    + intros H. apply IH in H as (n & -> & ->).
      apply loop_turn_continue_record in Hturn as ->.
      exists (S n). split; [lia|].
      rewrite firstn_cons, omap_cons_option_list. now rewrite app_assoc.
    + intros [= <- <-]. exists 1%nat. split; [lia|].
      simpl. rewrite (loop_turn_break_record _ _ Hturn).
      now rewrite app_nil_r.
    + discriminate.
  - intros [= <- <-]. exists 0%nat. split; [lia|]. simpl. now rewrite app_nil_r.
Qed.

(** X22.  Records come in receipt order, one for each datagram with a
    LOCATION header: a list that the call returns is empty (no record, or
    an unexpected exception) or is made, in order, of the records of the
    turns taken, each with the address and port its datagram came from. *)
Theorem returned_records_in_receipt_order (script : list tick) sock max_wait verbose
    (result : receive_result) (out : list response_data) :
  receive_ssdp_responses script sock max_wait verbose = Some result ->
  recv_exit result = Returned out ->
  out = []
  \/ out = omap record_of_turn (take (recv_calls result) script).
Proof.
  unfold receive_ssdp_responses.
  destruct (receive_loop max_wait script [] 0) as [[[rs|e] calls]|] eqn:Hloop;
    [| |discriminate]; intros [= <-]; simpl.
  - intros [= <-]. right.
    apply receive_loop_done_records in Hloop as (n & -> & ->). reflexivity.
  - destruct (is_exception e); [|discriminate]. intros [= <-]. now left.
Qed.

Lemma length_omap_le {A B : Type} (f : A -> option B) (l : list A) :
  (length (omap f l) <= length l)%nat.
Proof.
  induction l as [|x l IH]; [simpl; lia|].
  change (omap f (x :: l))
    with (match f x with Some y => y :: omap f l | None => omap f l end).
  destruct (f x); cbn [length]; lia.
Qed.

(** X23.  A turn adds at most one record: the list returned is never
    longer than the number of [recvfrom] calls made, which is never more
    than the number of turns of the session. *)
Theorem records_bounded_by_calls (script : list tick) sock max_wait verbose
    (result : receive_result) (out : list response_data) :
  receive_ssdp_responses script sock max_wait verbose = Some result ->
  recv_exit result = Returned out ->
  (length out <= recv_calls result <= length script)%nat.
Proof.
  unfold receive_ssdp_responses.
  destruct (receive_loop max_wait script [] 0) as [[[rs|e] calls]|] eqn:Hloop;
    [| |discriminate]; intros [= <-]; simpl;
    pose proof (receive_loop_calls _ _ _ _ _ _ Hloop) as Hcalls.
  - intros [= <-].
    apply receive_loop_done_records in Hloop as (n & -> & ->). simpl.
    pose proof (length_omap_le record_of_turn (take n script)) as Hlen.
    rewrite length_take in Hlen. lia.
  - destruct (is_exception e); [|discriminate]. intros [= <-]. simpl. lia.
Qed.

(** X24.  The descriptor is the body of the response whenever the status
    is not a 4xx or 5xx one, whatever else it is (1xx, 3xx and 6xx statuses
    included): the turn appends the record with that body. *)
Theorem fetched_body_is_descriptor (t : tick) data ip port
    (status_code : Z) (text location : pystr) (collected : list response_data) :
  recv t = Received data ip port (FetchResponse status_code text) ->
  parse_headers (decode_utf8_ignore data) !! LOCATION = Some location ->
  (status_code < 400 \/ 600 <= status_code)%Z ->
  loop_turn (recv t) collected
  = Continue (collected ++
                [{| ip_address := ip; port := port;
                    headers := parse_headers (decode_utf8_ignore data);
                    device_description := text; location := location |}]).
Proof.
  intros Hrecv Hloc Hstatus.
  unfold loop_turn, loop_body, process_datagram, fetch_device_description,
    raise_for_status.
  rewrite Hrecv, Hloc. simpl.
  replace ((400 <=? status_code) && (status_code <? 600))%Z with false;
    [reflexivity|].
  symmetry. apply andb_false_iff. destruct Hstatus.
  - left. apply Z.leb_gt. lia.
  - right. apply Z.ltb_ge. lia.
Qed.

(** X25.  A socket error that comes out of the descriptor fetch itself
    (an [OSError] that [requests] did not wrap) is taken for a receive
    error: the loop ends, the datagram under way yields no record and the
    call returns what had been collected before. *)
Theorem fetch_socket_error_ends_session max_wait (turns rest : list tick)
    (collected : list response_data) (t : tick) data ip port (e : exn)
    (location : pystr) sock verbose :
  run_turns max_wait turns [] = Some collected ->
  before_deadline max_wait t = true ->
  recv t = Received data ip port (FetchRaises e) ->
  parse_headers (decode_utf8_ignore data) !! LOCATION = Some location ->
  is_socket_error e = true ->
  is_request_exception e = false ->
  receive_ssdp_responses (turns ++ t :: rest) sock max_wait verbose
  = Some {| recv_exit := Returned collected; recv_sock := close sock;
            recv_calls := S (length turns) |}.
Proof.
  intros Hturns Hwin Hrecv Hloc Hsock Hreq.
  assert (Hbody : loop_body (recv t) collected = Raise e).
  { unfold loop_body, process_datagram, fetch_device_description.
    rewrite Hrecv, Hloc. simpl. now rewrite Hreq. }
  rewrite (receive_raise _ _ rest _ _ _ sock verbose Hturns Hwin Hbody).
  now rewrite Hsock.
Qed.

(** X26.  What is raised during a turn and is not an [Exception] (an
    interrupt) is passed to the caller, and the records collected are not
    handed over; the socket is closed all the same. *)
Theorem interrupt_propagates_socket_closed max_wait (turns rest : list tick)
    (collected : list response_data) (t : tick) (e : exn) sock verbose :
  run_turns max_wait turns [] = Some collected ->
  before_deadline max_wait t = true ->
  loop_body (recv t) collected = Raise e ->
  is_exception e = false ->
  receive_ssdp_responses (turns ++ t :: rest) sock max_wait verbose
  = Some {| recv_exit := Propagated e; recv_sock := close sock;
            recv_calls := S (length turns) |}
  /\ sock_closed (close sock) = true.
Proof.
  intros Hturns Hwin Hbody Hexc. split; [|reflexivity].
  rewrite (receive_raise _ _ rest _ _ _ sock verbose Hturns Hwin Hbody).
  destruct e; try discriminate. reflexivity.
Qed.

(** ** Properties of [main] *)

(** X27.  [main] refuses a maximum wait, a timeout or a number of retries
    that is zero or negative: it exits with status 1 before any socket is
    opened, so nothing is sent and nothing is received. *)
Theorem main_rejects_nonpositive (a : args) env (script : list tick) :
  (max_wait a <= 0)%Z \/ (timeout a <= 0)%Q \/ (retries a <= 0)%Z ->
  main a env script = (Some (SysExit 1), []).
Proof.
  intros H. unfold main.
  destruct (Z.leb_spec (max_wait a) 0); [reflexivity|].
  destruct (Qle_bool (timeout a) 0) eqn:Ht; [reflexivity|].
  destruct (Z.leb_spec (retries a) 0); [reflexivity|].
  destruct H as [H|[H|H]]; [lia | | lia].
  apply Qle_bool_iff in H. congruence.
Qed.

Lemma main_valid (a : args) env (script : list tick) :
  (0 < max_wait a)%Z -> (0 < timeout a)%Q -> (0 < retries a)%Z ->
  main a env script
  = let '(sent, trace) :=
      send_ssdp_discovery env (search_target a) (retries a) (timeout a) in
    match sent with
    | Propagated e => (Some (Uncaught e), trace)
    | Returned None => (Some (SysExit 1), trace)
    | Returned (Some sock) =>
        (match receive_ssdp_responses script sock (max_wait a) (verbose a) with
         | None => None
         | Some r =>
             Some match recv_exit r with
                  | Returned responses => Finished responses
                  | Propagated e => Uncaught e
                  end
         end, trace)
    end.
Proof.
  intros Hw Ht Hr. unfold main.
  destruct (Z.leb_spec (max_wait a) 0); [lia|].
  destruct (Qle_bool (timeout a) 0) eqn:Hq.
  { apply Qle_bool_iff in Hq. exfalso. apply (Qlt_not_le _ _ Ht Hq). }
  destruct (Z.leb_spec (retries a) 0); [lia|]. reflexivity.
Qed.

(** X28.  When sending fails, [main] exits with status 1 and does not
    listen: the outcome does not depend on what the network would have
    answered. *)
Theorem main_exits_when_send_fails (a : args) env (script : list tick) :
  (0 < max_wait a)%Z -> (0 < timeout a)%Q -> (0 < retries a)%Z ->
  fst (send_ssdp_discovery env (search_target a) (retries a) (timeout a))
  = Returned None ->
  main a env script
  = (Some (SysExit 1),
     snd (send_ssdp_discovery env (search_target a) (retries a) (timeout a))).
Proof.
  intros Hw Ht Hr Hsend. rewrite main_valid by assumption.
  destruct (send_ssdp_discovery env (search_target a) (retries a) (timeout a))
    as [sent trace].
  simpl in Hsend. now subst sent.
Qed.

Lemma send_propagated_not_exception env st (retries : Z) timeout (e : exn) :
  fst (send_ssdp_discovery env st retries timeout) = Propagated e ->
  is_exception e = false.
Proof.
  unfold send_ssdp_discovery.
  destruct (send_body env st retries timeout) as [[sock|e'] trace]; simpl;
    [discriminate|].
  destruct (is_socket_error e'); [discriminate|].
  destruct (is_exception e') eqn:Hex; [discriminate|]. now intros [= <-].
Qed.

(** X29.  No [Exception] leaves [main]: socket errors, encoding errors
    and fetch errors all end in an exit status or a (possibly empty) list
    of devices; only what is outside [Exception] is left unhandled. *)
Theorem main_passes_no_exception (a : args) env (script : list tick) (e : exn) :
  fst (main a env script) = Some (Uncaught e) -> is_exception e = false.
Proof.
  unfold main.
  destruct (max_wait a <=? 0)%Z; [discriminate|].
  destruct (Qle_bool (timeout a) 0); [discriminate|].
  destruct (retries a <=? 0)%Z; [discriminate|].
  pose proof (send_propagated_not_exception env (search_target a) (retries a)
                (timeout a)) as Hsend.
  destruct (send_ssdp_discovery env (search_target a) (retries a) (timeout a))
    as [[[sock|]|e'] trace]; simpl in *.
  - unfold receive_ssdp_responses.
    destruct (receive_loop (max_wait a) script [] 0) as [[[rs|e'] calls]|];
      simpl; try discriminate.
    destruct (is_exception e') eqn:Hex; [discriminate|]. now intros [= <-].
  - discriminate.
  - intros [= <-]. now apply Hsend.
Qed.

(** X30.  With valid arguments, a timeout that [settimeout] takes, an
    encodable search target and a network and clock that let every
    [sendto] and every pause through, [main] sends the request [retries]
    times, each followed by the pause, and then ends as the collector does
    on the opened socket, with the maximum wait given on the command
    line. *)
Theorem main_sends_then_collects (a : args) env (script : list tick) (kept : Q) :
  (0 < max_wait a)%Z -> (0 < timeout a)%Q -> (0 < retries a)%Z ->
  socket_raises env = None ->
  settimeout_result env (timeout a) = Ok kept ->
  (forall i, (i < Z.to_nat (retries a))%nat ->
             sendto_raises env i = None /\ sleep_raises env i = None) ->
  existsb is_surrogate (search_target a) = false ->
  main a env script
  = (match receive_ssdp_responses script
             {| sock_timeout := kept; sock_closed := false |}
             (max_wait a) (verbose a) with
     | None => None
     | Some r =>
         Some match recv_exit r with
              | Returned responses => Finished responses
              | Propagated e => Uncaught e
              end
     end,
     sent_events
       (wire_payload (str "2") (flat_map utf8_of_code_point (search_target a)))
       (Z.to_nat (retries a))).
Proof.
  intros Hw Ht Hr Hs Hkept Hsend Hst. rewrite main_valid by assumption.
  assert (Hq : Qle_bool 0 (timeout a) = true)
    by (apply Qle_bool_iff, Qlt_le_weak, Ht).
  unfold send_ssdp_discovery, send_body, settimeout. rewrite Hs, Hq, Hkept.
  simpl.
  erewrite send_loop_all_sent;
    [| |intros i Hi; apply Hsend; now apply in_range].
  - rewrite length_range. reflexivity.
  - rewrite encode_utf8_ok by now rewrite surrogate_free_request.
    now rewrite ssdp_request_wire, utf8_wire_payload.
Qed.

End Session.

(** ** The model on sample sessions *)

(** The identity on non-ASCII code points meets the requirements on the
    case-mapping table. *)
Lemma ascii_upper_table_ok : upper_table_ok ascii_unicode_upper.
Proof.
  intros c Hc. unfold ascii_unicode_upper. repeat split.
  - unfold upper, upper_code_point. simpl.
    now replace (c <? 128) with false by (symmetry; apply N.ltb_ge; lia).
  - discriminate.
  - now repeat constructor.
  - repeat constructor. unfold COLON. lia.
Qed.

Lemma send_issues_retries_datagrams_witness :
  datagrams (snd (send_ssdp_discovery quiet_env SSDP_ST 3 5))
  = replicate 3 (wire_payload (str "2") (str "upnp:rootdevice"),
                 str "239.255.255.250", 1900%Z).
Proof.
  apply (send_issues_retries_datagrams quiet_env SSDP_ST 3 5 open_socket);
    [lia | reflexivity].
Defined.

(** C2, as the claim words it, fails: a fetch that fails outside
    [RequestException] loses the record.  An exception of another kind
    (a malformed URL reported by the URL parser) empties the whole result;
    a socket error let through by the fetch ends the session without the
    record; and an answer with status 600 gives the body, not the marker. *)
Lemma unhandled_fetch_failure_loses_record :
  receive_ssdp_responses ascii_unicode_upper ascii_decode
    [turn_fetched; turn_fetch_crashes; turn_deadline] open_socket 2 false
  = Some {| recv_exit := Returned []; recv_sock := close open_socket;
            recv_calls := 2 |}
  /\ receive_ssdp_responses ascii_unicode_upper ascii_decode
       [turn_fetched; turn_fetch_times_out; turn_deadline] open_socket 2 false
     = Some {| recv_exit := Returned [record_fetched];
               recv_sock := close open_socket; recv_calls := 2 |}
  /\ receive_ssdp_responses ascii_unicode_upper ascii_decode
       [turn_status_600; turn_deadline] open_socket 2 false
     = Some {| recv_exit :=
                 Returned [{| ip_address := responder_ip; port := 1900;
                              headers := sample_headers;
                              device_description := str "odd";
                              location := sample_location |}];
               recv_sock := close open_socket; recv_calls := 1 |}.
Proof. repeat split. Qed.

Lemma fetch_failure_keeps_record_witness :
  loop_turn ascii_unicode_upper ascii_decode (recv turn_not_found) [record_fetched]
  = Continue ([record_fetched] ++ [record_unavailable])
  /\ In record_unavailable [record_fetched; record_unavailable]
  /\ exists calls,
       receive_ssdp_responses ascii_unicode_upper ascii_decode
         ([turn_fetched] ++ turn_not_found :: [turn_no_location]
          ++ turn_timeout :: [turn_fetched])
         open_socket 2 false
       = Some {| recv_exit := Returned [record_fetched; record_unavailable];
                 recv_sock := close open_socket; recv_calls := calls |}.
Proof.
  apply (fetch_failure_keeps_record ascii_unicode_upper ascii_decode 2
           [turn_fetched] [turn_no_location] [turn_fetched]
           [record_fetched] [record_fetched; record_unavailable]
           turn_not_found turn_timeout
           reply_with_location responder_ip 1900%Z
           (FetchResponse 404 (str "not found")) sample_location
           open_socket false);
    try reflexivity.
  right. reflexivity.
Defined.

Lemma socket_error_returns_partial_witness :
  exists out,
    receive_ssdp_responses ascii_unicode_upper ascii_decode
      ([turn_fetched] ++ turn_socket_error :: [turn_fetched]) open_socket 2 false
    = Some {| recv_exit := Returned out; recv_sock := close open_socket;
              recv_calls := 2 |}
    /\ (is_socket_error SocketError = true -> out = [record_fetched]).
Proof.
  apply (socket_error_returns_partial ascii_unicode_upper ascii_decode 2
           [turn_fetched] [turn_fetched] [record_fetched] turn_socket_error
           SocketError open_socket false);
    reflexivity.
Defined.

(** C4, as the claim words it, fails: with [-mx 5] the datagram that
    [main] sends has no line [MX: 5]; its MX line is [MX: 2]. *)
Lemma mx_flag_value_not_in_payload :
  let a := {| search_target := SSDP_ST; max_wait := 5; timeout := 5;
              retries := 3; verbose := false |} in
  exists payload addr port,
    In (payload, addr, port)
       (datagrams (snd (main ascii_unicode_upper ascii_decode a quiet_env
                          [turn_timeout])))
    /\ has_line (str "MX: " ++ format_int (max_wait a)) payload = false
    /\ has_line (str "MX: 2") payload = true.
Proof.
  exists (wire_payload (str "2") (str "upnp:rootdevice")), SSDP_ADDR, SSDP_PORT.
  split; [left; reflexivity | split; reflexivity].
Qed.

Lemma main_payload_mx_is_constant_witness :
  has_line (str "MX: 2") (wire_payload (str "2") (str "upnp:rootdevice")) = true.
Proof.
  apply (main_payload_mx_is_constant ascii_unicode_upper ascii_decode
           {| search_target := SSDP_ST; max_wait := 5; timeout := 5;
              retries := 3; verbose := false |}
           quiet_env [turn_timeout] _ SSDP_ADDR SSDP_PORT).
  left. reflexivity.
Defined.

Lemma header_parsing_idempotent_witness :
  parse_line ascii_unicode_upper (str "LOCATION" ++ COLON :: str "http://x")
  = Some (str "LOCATION", str "http://x").
Proof.
  apply (proj1 (header_parsing_idempotent ascii_unicode_upper ascii_upper_table_ok)
           (str " Location : http://x ")).
  reflexivity.
Defined.

Lemma last_header_line_wins_witness :
  parse_headers ascii_unicode_upper (ascii_decode reply_duplicate_st) !! str "ST"
  = Some (str "b").
Proof.
  apply (last_header_line_wins ascii_unicode_upper ascii_decode reply_duplicate_st
           [str "ST: a"] [str "USN: c"] (str "st : b")).
  - reflexivity.
  - reflexivity.
  - intros l v [<-|[]]. discriminate.
Defined.

Lemma no_location_no_record_witness :
  exists calls,
    receive_ssdp_responses ascii_unicode_upper ascii_decode
      [turn_no_location; turn_deadline] open_socket 2 false
    = Some {| recv_exit := Returned []; recv_sock := close open_socket;
              recv_calls := calls |}.
Proof.
  apply (no_location_no_record ascii_unicode_upper ascii_decode 2
           [turn_no_location; turn_deadline] open_socket false).
  - intros t data ip port fetch [<-|[<-|[]]]; [|discriminate].
    intros [= <- _ _ _]. reflexivity.
  - intros t e [<-|[<-|[]]]; [discriminate|]. now intros [= <-].
  - exists turn_deadline. split; [right; left|]; reflexivity.
Defined.

Lemma timeout_ends_loop_witness :
  receive_ssdp_responses ascii_unicode_upper ascii_decode
    ([turn_fetched] ++ turn_timeout :: [turn_not_found; turn_deadline])
    open_socket 2 false
  = Some {| recv_exit := Returned [record_fetched];
            recv_sock := close open_socket; recv_calls := 2 |}.
Proof.
  apply (timeout_ends_loop ascii_unicode_upper ascii_decode 2 [turn_fetched]
           [turn_not_found; turn_deadline] [record_fetched] turn_timeout
           open_socket false);
    reflexivity.
Defined.

Lemma unexpected_exception_returns_empty_witness :
  exists result,
    receive_ssdp_responses ascii_unicode_upper ascii_decode
      ([turn_fetched] ++ turn_fetch_crashes :: [turn_deadline]) open_socket 2 false
    = Some result
    /\ recv_exit result = Returned []
    /\ sock_closed (recv_sock result) = true.
Proof.
  apply (unexpected_exception_returns_empty ascii_unicode_upper ascii_decode 2
           [turn_fetched] [turn_deadline] [record_fetched] turn_fetch_crashes
           OtherException open_socket false);
    reflexivity.
Defined.

Lemma returned_records_invariant_witness :
  headers record_unavailable !! str "LOCATION" = Some (location record_unavailable)
  /\ (device_description record_unavailable = str "Unavailable"
      \/ exists t data ip port status_code text,
           In t [turn_fetched; turn_not_found; turn_deadline]
           /\ recv t = Received data ip port (FetchResponse status_code text)
           /\ device_description record_unavailable = text).
Proof.
  apply (returned_records_invariant ascii_unicode_upper ascii_decode 2
           [turn_fetched; turn_not_found; turn_deadline] open_socket false
           {| recv_exit := Returned [record_fetched; record_unavailable];
              recv_sock := close open_socket; recv_calls := 2 |}
           [record_fetched; record_unavailable]).
  - reflexivity.
  - reflexivity.
  - right. left. reflexivity.
Defined.

(** ** Further sample runs *)

Lemma send_aborts_at_first_error_witness :
  fst (send_ssdp_discovery third_send_fails SSDP_ST 5 5) = Returned None
  /\ datagrams (snd (send_ssdp_discovery third_send_fails SSDP_ST 5 5))
     = replicate 2 (wire_payload (str "2") (str "upnp:rootdevice"),
                    SSDP_ADDR, SSDP_PORT).
Proof.
  apply (send_aborts_at_first_error third_send_fails SSDP_ST 5 5 5 2 SocketError);
    try reflexivity; [simpl; lia|].
  intros [|[|j]] Hj; [split; reflexivity | split; reflexivity | lia].
Defined.


Lemma send_nothing_on_setup_failure_witness :
  snd (send_ssdp_discovery no_socket_env SSDP_ST 3 5) = []
  /\ ((0 < 3)%Z ->
      forall sock,
        fst (send_ssdp_discovery no_socket_env SSDP_ST 3 5) <> Returned (Some sock)).
Proof.
  apply (send_nothing_on_setup_failure no_socket_env SSDP_ST 3 5).
  left. exists SocketError. reflexivity.
Defined.

Lemma encode_utf8_bytes_witness :
  Forall (fun b => b < 256) [195; 159; 226; 130; 172]
  /\ (length [223%N; 8364%N] <= length [195%N; 159%N; 226%N; 130%N; 172%N]
      <= 4 * length [223%N; 8364%N])%nat.
Proof.
  apply (encode_utf8_bytes [223; 8364] [195; 159; 226; 130; 172]).
  - reflexivity.
  - repeat constructor; lia.
Defined.

Lemma encode_utf8_ascii_witness : encode_utf8 SSDP_ST = Ok SSDP_ST.
Proof.
  apply (encode_utf8_ascii SSDP_ST).
  unfold SSDP_ST. simpl. repeat constructor.
Defined.

Lemma split1_join_witness :
  str "Location: http://x"
  = fst (split1 COLON (str "Location: http://x"))
    ++ COLON :: snd (split1 COLON (str "Location: http://x"))
  /\ Forall (fun x => x <> COLON) (fst (split1 COLON (str "Location: http://x"))).
Proof.
  apply (split1_join COLON (str "Location: http://x")). reflexivity.
Defined.

Lemma splitlines_first_line_witness :
  splitlines (str "ST: a" ++ CR :: LF :: str "USN: c")
  = str "ST: a" :: splitlines (str "USN: c")
  /\ (is_linebreak LF = true ->
      (LF = CR -> head (str "USN: c") <> Some LF) ->
      splitlines (str "ST: a" ++ LF :: str "USN: c")
      = str "ST: a" :: splitlines (str "USN: c")).
Proof.
  apply (splitlines_first_line (str "ST: a") (str "USN: c") LF).
  simpl. repeat constructor.
Defined.

Lemma parsed_entry_from_line_witness :
  exists line,
    In line (splitlines (ascii_decode reply_with_location))
    /\ in_str COLON line = true
    /\ str "LOCATION"
       = upper ascii_unicode_upper (strip (fst (split1 COLON line)))
    /\ sample_location = strip (snd (split1 COLON line)).
Proof.
  apply (parsed_entry_from_line ascii_unicode_upper
           (ascii_decode reply_with_location) (str "LOCATION") sample_location).
  reflexivity.
Defined.

Lemma parsed_values_trimmed_witness :
  strip sample_location = sample_location
  /\ Forall (fun x => is_linebreak x = false) sample_location.
Proof.
  apply (parsed_values_trimmed ascii_unicode_upper
           (ascii_decode reply_with_location) (str "LOCATION") sample_location).
  reflexivity.
Defined.

Lemma parsed_keys_normalised_witness :
  upper ascii_unicode_upper (str "ST") = str "ST"
  /\ strip (str "ST") = str "ST"
  /\ in_str COLON (str "ST") = false.
Proof.
  apply (parsed_keys_normalised ascii_unicode_upper
           (ascii_decode reply_duplicate_st) (str "ST") (str "b")
           ascii_upper_table_ok).
  reflexivity.
Defined.

Lemma parse_headers_no_colon_witness :
  parse_headers ascii_unicode_upper (str "HTTP/1.1 200 OK" ++ CRLF) = ∅.
Proof.
  apply (parse_headers_no_colon ascii_unicode_upper). reflexivity.
Defined.

Lemma parse_line_first_colon_witness :
  parse_line ascii_unicode_upper (str "Location" ++ COLON :: str " http://x:80/d ")
  = Some (upper ascii_unicode_upper (strip (str "Location")),
          strip (str " http://x:80/d ")).
Proof.
  apply (parse_line_first_colon ascii_unicode_upper). reflexivity.
Defined.

Lemma parse_line_ascii_case_insensitive_witness :
  parse_line ascii_unicode_upper (str "Location" ++ COLON :: str " http://x")
  = parse_line ascii_unicode_upper (str "LOCATION" ++ COLON :: str " http://x").
Proof.
  apply (parse_line_ascii_case_insensitive ascii_unicode_upper);
    try reflexivity; simpl; repeat constructor.
Defined.

Lemma receive_ends_by_deadline_witness :
  exists result,
    receive_ssdp_responses ascii_unicode_upper ascii_decode
      [turn_fetched; turn_deadline] open_socket 2 false = Some result
    /\ sock_closed (recv_sock result) = true
    /\ (recv_calls result <= length [turn_fetched; turn_deadline])%nat.
Proof.
  apply (receive_ends_by_deadline ascii_unicode_upper ascii_decode 2
           [turn_fetched; turn_deadline] open_socket false).
  exists turn_deadline. split; [right; left|]; reflexivity.
Defined.

Lemma deadline_ends_loop_witness :
  receive_ssdp_responses ascii_unicode_upper ascii_decode
    ([turn_fetched] ++ turn_deadline :: [turn_not_found]) open_socket 2 false
  = Some {| recv_exit := Returned [record_fetched];
            recv_sock := close open_socket; recv_calls := 1 |}.
Proof.
  apply (deadline_ends_loop ascii_unicode_upper ascii_decode 2 [turn_fetched]
           [turn_not_found] [record_fetched] turn_deadline open_socket false);
    reflexivity.
Defined.

Lemma returned_records_in_receipt_order_witness :
  [record_fetched; record_unavailable] = []
  \/ [record_fetched; record_unavailable]
     = omap (record_of_turn ascii_unicode_upper ascii_decode)
         (take 3 [turn_fetched; turn_no_location; turn_not_found; turn_deadline]).
Proof.
  apply (returned_records_in_receipt_order ascii_unicode_upper ascii_decode
           [turn_fetched; turn_no_location; turn_not_found; turn_deadline]
           open_socket 2 false
           {| recv_exit := Returned [record_fetched; record_unavailable];
              recv_sock := close open_socket; recv_calls := 3 |});
    reflexivity.
Defined.

Lemma records_bounded_by_calls_witness :
  (length [record_fetched; record_unavailable] <= 3
   <= length [turn_fetched; turn_no_location; turn_not_found; turn_deadline])%nat.
Proof.
  apply (records_bounded_by_calls ascii_unicode_upper ascii_decode
           [turn_fetched; turn_no_location; turn_not_found; turn_deadline]
           open_socket 2 false
           {| recv_exit := Returned [record_fetched; record_unavailable];
              recv_sock := close open_socket; recv_calls := 3 |});
    reflexivity.
Defined.

Lemma fetched_body_is_descriptor_witness :
  loop_turn ascii_unicode_upper ascii_decode (recv turn_fetched) []
  = Continue ([] ++ [record_fetched]).
Proof.
  apply (fetched_body_is_descriptor ascii_unicode_upper ascii_decode turn_fetched
           reply_with_location responder_ip 1900%Z 200%Z (str "<root/>")
           sample_location []);
    [reflexivity | reflexivity | left; lia].
Defined.

Lemma fetch_socket_error_ends_session_witness :
  receive_ssdp_responses ascii_unicode_upper ascii_decode
    ([turn_fetched] ++ turn_fetch_times_out :: [turn_deadline]) open_socket 2 false
  = Some {| recv_exit := Returned [record_fetched];
            recv_sock := close open_socket; recv_calls := 2 |}.
Proof.
  apply (fetch_socket_error_ends_session ascii_unicode_upper ascii_decode 2
           [turn_fetched] [turn_deadline] [record_fetched] turn_fetch_times_out
           reply_with_location responder_ip 1900%Z SocketTimeout sample_location
           open_socket false);
    reflexivity.
Defined.

Lemma interrupt_propagates_socket_closed_witness :
  receive_ssdp_responses ascii_unicode_upper ascii_decode
    ([turn_fetched] ++ turn_interrupted :: [turn_deadline]) open_socket 2 false
  = Some {| recv_exit := Propagated BaseExc; recv_sock := close open_socket;
            recv_calls := 2 |}
  /\ sock_closed (close open_socket) = true.
Proof.
  apply (interrupt_propagates_socket_closed ascii_unicode_upper ascii_decode 2
           [turn_fetched] [turn_deadline] [record_fetched] turn_interrupted
           BaseExc open_socket false);
    reflexivity.
Defined.

Lemma main_rejects_nonpositive_witness :
  main ascii_unicode_upper ascii_decode
    {| search_target := SSDP_ST; max_wait := 2; timeout := 5; retries := 0;
       verbose := false |}
    quiet_env [turn_fetched; turn_deadline]
  = (Some (SysExit 1), []).
Proof.
  apply (main_rejects_nonpositive ascii_unicode_upper ascii_decode).
  right. right. simpl. lia.
Defined.

Lemma main_exits_when_send_fails_witness :
  main ascii_unicode_upper ascii_decode default_args no_socket_env
    [turn_fetched; turn_deadline]
  = (Some (SysExit 1),
     snd (send_ssdp_discovery no_socket_env (search_target default_args)
            (retries default_args) (timeout default_args))).
Proof.
  apply (main_exits_when_send_fails ascii_unicode_upper ascii_decode
           default_args no_socket_env [turn_fetched; turn_deadline]);
    reflexivity.
Defined.

Lemma main_passes_no_exception_witness : is_exception BaseExc = false.
Proof.
  apply (main_passes_no_exception ascii_unicode_upper ascii_decode
           default_args interrupted_env [turn_fetched; turn_deadline] BaseExc).
  reflexivity.
Defined.

Lemma main_sends_then_collects_witness :
  main ascii_unicode_upper ascii_decode default_args quiet_env
    [turn_fetched; turn_deadline]
  = (Some (Finished [record_fetched]),
     sent_events (wire_payload (str "2") (str "upnp:rootdevice")) 3).
Proof.
  apply (main_sends_then_collects ascii_unicode_upper ascii_decode
           default_args quiet_env [turn_fetched; turn_deadline] 5);
    try reflexivity.
  intros i _. split; reflexivity.
Defined.
